(** * tentbox: the DHT22 sensor manager (go/dht22/dht22.go)

    A shallow embedding of package [dht22]: the sensor handle [DHT22], the
    [Manager] that owns a map of handles, the goroutine spawned by
    [StartReadCycle], and the document [json.Marshal] builds for [String].

    Handles are pointers in the source ([*DHT22] stored in a map and kept by
    the caller), so the model has a store of handle objects and the manager
    maps pins to addresses in that store.  Goroutines are modelled by an
    interleaving semantics whose atomic steps are the individual accesses to
    shared memory. *)

From Stdlib Require Import PrimFloat ZArith DecimalString.
From Stdlib Require DecimalPos DecimalZ.
From stdpp Require Import gmap strings list sorting.

Open Scope Z_scope.

(** ** Values *)

(** Go's [float64]. *)
Abbreviation float64 := float (only parsing).

(** [%d] of fmt.Printf and the text encoding/json gives an integer map key. *)
Definition itoa (z : Z) : string := NilZero.string_of_int (Z.to_int z).

(** A [*DHT22]: an index into the store of handles.  An index that is not
    allocated stands for the nil pointer. *)
Abbreviation ptr := nat (only parsing).

(** A [chan struct{}]: an index into the store of channels. *)
Abbreviation chan := nat (only parsing).

(** ** type DHT22 struct (lines 12-19) *)

Record DHT22 : Type := mkDHT22 {
  mu : bool;              (* the embedded sync.RWMutex: true while Lock is held *)
  pin : Z;
  Name : string;
  Location : string;
  Temp : float64;
  Humidity : float64
}.

(** func NewDHT22 (lines 21-27): the fields left out of the composite literal
    take their zero value. *)
Definition NewDHT22 (pin : Z) (name location : string) : DHT22 :=
  {| mu := false; pin := pin; Name := name; Location := location;
     Temp := 0%float; Humidity := 0%float |}.

Definition set_mu (b : bool) (d : DHT22) : DHT22 :=
  {| mu := b; pin := pin d; Name := Name d; Location := Location d;
     Temp := Temp d; Humidity := Humidity d |}.
Definition set_Name (s : string) (d : DHT22) : DHT22 :=
  {| mu := mu d; pin := pin d; Name := s; Location := Location d;
     Temp := Temp d; Humidity := Humidity d |}.
Definition set_Location (s : string) (d : DHT22) : DHT22 :=
  {| mu := mu d; pin := pin d; Name := Name d; Location := s;
     Temp := Temp d; Humidity := Humidity d |}.
Definition set_Temp (f : float64) (d : DHT22) : DHT22 :=
  {| mu := mu d; pin := pin d; Name := Name d; Location := Location d;
     Temp := f; Humidity := Humidity d |}.
Definition set_Humidity (f : float64) (d : DHT22) : DHT22 :=
  {| mu := mu d; pin := pin d; Name := Name d; Location := Location d;
     Temp := Temp d; Humidity := f |}.

(** ** The driver call

    What [dht.ReadDHTxxWithRetry(dht.DHT22, d.pin, false, 3)] returns:
    [(temperature, humidity, retried, err)].  The two float32 results are
    given as the float64 they convert to. *)
Record reading : Type := mkReading {
  temperature : float64;
  humidity : float64;
  retried : Z;
  err : option string
}.

Definition newline : string := String (Ascii.ascii_of_nat 10) EmptyString.

(** The line printed by [read] when the driver fails (line 44). *)
Definition failure_line (r : reading) : string :=
  "Failed to get a successful reading after " +:+ itoa (retried r)
    +:+ " attempts" +:+ newline.

(** func (d *DHT22) read (lines 41-49), on the handle's value: the handle
    after the call and what was printed. *)
Definition read (r : reading) (d : DHT22) : DHT22 * list string :=
  match err r with
  | Some _ => (d, [failure_line r])
  | None => (set_Humidity (humidity r) (set_Temp (temperature r) d), [])
  end.

(** ** type Manager struct (lines 51-54) *)

Record Manager : Type := mkManager {
  Sensors : gmap Z ptr;
  stopReading : option chan      (* None is the nil channel *)
}.

(** func NewManager (lines 56-60). *)
Definition NewManager : Manager :=
  {| Sensors := ∅; stopReading := None |}.

(** ** JSON documents built by encoding/json *)

#[warnings="-register-all"] Inductive json : Type :=
| JNull
| JNumber (f : float64)
| JString (s : string)
| JObject (members : list (string * json)).

(** What [string(data)] is in [String]: the document, or the empty string
    when Marshal failed and [data] is nil. *)
Inductive text : Type :=
| Bytes (doc : json)
| Empty.

(** encoding/json refuses NaN and the infinities (UnsupportedValueError). *)
Definition finite (f : float64) : bool := negb (is_nan f || is_infinity f).
Arguments finite : simpl never.

Definition encode_float (f : float64) : option json :=
  if finite f then Some (JNumber f) else None.

(** The exported fields of [DHT22] in declaration order, under the names of
    their [json] tags.  [pin] is unexported and the embedded RWMutex has no
    exported field: neither is encoded. *)
Definition field_names : list string := ["name"; "location"; "temp"; "humidity"].

Definition encode_field (i : nat) (d : DHT22) : option json :=
  match i with
  | 0%nat => Some (JString (Name d))
  | 1%nat => Some (JString (Location d))
  | 2%nat => encode_float (Temp d)
  | _ => encode_float (Humidity d)
  end.

Definition encode_DHT22 (d : DHT22) : option json :=
  JObject <$> mapM (λ '(i, n), pair n <$> encode_field i d)
                   (imap pair field_names).

(** A map value of type [*DHT22]: null for nil. *)
Definition encode_ptr (store : list DHT22) (p : ptr) : option json :=
  match store !! p with
  | None => Some JNull
  | Some d => encode_DHT22 d
  end.

(** The order encoding/json puts map entries in: by key text. *)
Definition key_le (a b : string * ptr) : Prop := String.leb a.1 b.1 = true.

#[global] Instance key_le_dec a b : Decision (key_le a b).
Proof. unfold key_le. apply _. Defined.

(** The entries of a [map[int]*DHT22] as encoding/json visits them: keys
    printed in decimal, then sorted. *)
Definition sorted_entries (m : gmap Z ptr) : list (string * ptr) :=
  merge_sort key_le (prod_map itoa id <$> map_to_list m).

Definition encode_Sensors (store : list DHT22) (m : gmap Z ptr) : option json :=
  JObject <$> mapM (λ '(k, p), pair k <$> encode_ptr store p) (sorted_entries m).

(** [json.Marshal(dm)]: [Sensors] under its tag, [stopReading] unexported. *)
Definition Marshal (store : list DHT22) (m : Manager) : option json :=
  (λ j, JObject [("dht22", j)]) <$> encode_Sensors store (Sensors m).

(** ** The program state *)

(** A call either returns, or panics (which ends the program), or cannot
    proceed yet. *)
Inductive outcome (A : Type) : Type :=
| Done (a : A)
| Panic (msg : string)
| Blocked.
Arguments Done {A} a.
Arguments Panic {A} msg.
Arguments Blocked {A}.

#[global] Instance outcome_bind : MBind outcome := λ A B k o,
  match o with
  | Done a => k a
  | Panic msg => Panic msg
  | Blocked => Blocked
  end.

Definition nil_dereference : string :=
  "invalid memory address or nil pointer dereference".

(** Dereferencing a [*DHT22]. *)
Definition deref (store : list DHT22) (d : ptr) : outcome DHT22 :=
  match store !! d with
  | Some v => Done v
  | None => Panic nil_dereference
  end.

(** Where the goroutine started by [StartReadCycle] stands (lines 68-82). *)
Inductive cycle_pc : Type :=
| AtNewTicker                                   (* line 69 *)
| AtSelect (stop : option chan)                 (* line 70, operands evaluated *)
| AtRange (start visited : gset Z)              (* line 76 *)
| AtDriver (start visited : gset Z) (d : ptr)   (* line 42 *)
| AtTemp (start visited : gset Z) (d : ptr) (r : reading)       (* line 47 *)
| AtHumidity (start visited : gset Z) (d : ptr) (r : reading)   (* line 48 *)
| AtSleep                                       (* line 79 *)
| Returned.                                     (* line 73 *)

(** Where a caller of [SetName] or [SetLocation] stands (lines 29-39). *)
Inductive setter_pc : Type :=
| AtLock
| AtAssign
| AtUnlock
| SetterReturned.

Inductive setter_field : Type := FName | FLocation.

(** Where a caller of [String] stands inside [json.Marshal]. *)
Inductive marshal_pc : Type :=
| AtMap                                          (* about to collect dm.Sensors *)
| AtField (acc : list (string * json))           (* entries already encoded *)
          (k : string) (d : ptr)                 (* the entry being encoded *)
          (got : list (string * json))           (* its fields read so far *)
          (rest : list (string * ptr))           (* entries still to encode *)
| Marshalled (t : text).

(** A goroutine. *)
Inductive thread : Type :=
| Cycle (interval : Z)            (* the closure's captured [interval] *)
        (ticker : option bool)    (* None: no running ticker; Some b: running,
                                     b tells whether ticker.C holds a tick *)
        (pc : cycle_pc)
| Setter (f : setter_field) (d : ptr) (v : string) (pc : setter_pc)
| Stringer (pc : marshal_pc).

Record World : Type := mkWorld {
  store : list DHT22;          (* the DHT22 objects *)
  chans : list bool;           (* the channels made so far: true once closed *)
  dm : Manager;
  threads : list thread;
  stdout : list string;        (* lines printed, oldest first *)
  driver_calls : list Z        (* pins the driver was called with, oldest first *)
}.

Definition with_store (s : list DHT22) (w : World) : World :=
  {| store := s; chans := chans w; dm := dm w; threads := threads w;
     stdout := stdout w; driver_calls := driver_calls w |}.
Definition with_chans (c : list bool) (w : World) : World :=
  {| store := store w; chans := c; dm := dm w; threads := threads w;
     stdout := stdout w; driver_calls := driver_calls w |}.
Definition with_dm (m : Manager) (w : World) : World :=
  {| store := store w; chans := chans w; dm := m; threads := threads w;
     stdout := stdout w; driver_calls := driver_calls w |}.
Definition with_threads (t : list thread) (w : World) : World :=
  {| store := store w; chans := chans w; dm := dm w; threads := t;
     stdout := stdout w; driver_calls := driver_calls w |}.
Definition with_stdout (o : list string) (w : World) : World :=
  {| store := store w; chans := chans w; dm := dm w; threads := threads w;
     stdout := o; driver_calls := driver_calls w |}.
Definition with_driver_calls (c : list Z) (w : World) : World :=
  {| store := store w; chans := chans w; dm := dm w; threads := threads w;
     stdout := stdout w; driver_calls := c |}.

(** A program that has made one manager with [NewManager] and nothing else. *)
Definition init : World :=
  {| store := []; chans := []; dm := NewManager; threads := [];
     stdout := []; driver_calls := [] |}.

(** ** The manager's methods, each run as one atomic call *)

(** [NewDHT22(pin, name, location)]: allocates the handle, returns its address. *)
Definition new_DHT22 (pin : Z) (name location : string) (w : World) : ptr * World :=
  (length (store w), with_store (store w ++ [NewDHT22 pin name location]) w).

(** func (dm *Manager) AddSensor (lines 62-64). *)
Definition AddSensor (dht : ptr) (w : World) : outcome World :=
  v ← deref (store w) dht;
  Done (with_dm {| Sensors := <[pin v := dht]> (Sensors (dm w));
                   stopReading := stopReading (dm w) |} w).

(** func (dm *Manager) StartReadCycle (lines 66-83): makes the channel,
    stores it in the field and starts the goroutine, which has not run yet. *)
Definition StartReadCycle (interval : Z) (w : World) : outcome World :=
  let c := length (chans w) in
  Done (with_threads (threads w ++ [Cycle interval None AtNewTicker])
         (with_dm {| Sensors := Sensors (dm w); stopReading := Some c |}
           (with_chans (chans w ++ [false]) w))).

(** [close(c)]. *)
Definition close (c : option chan) (w : World) : outcome World :=
  match c with
  | None => Panic "close of nil channel"
  | Some i =>
      match chans w !! i with
      | Some false => Done (with_chans (<[i := true]> (chans w)) w)
      | _ => Panic "close of closed channel"
      end
  end.

(** func (dm *Manager) StopReadCycle (lines 85-87). *)
Definition StopReadCycle (w : World) : outcome World :=
  close (stopReading (dm w)) w.

(** func (dm *Manager) String (lines 89-92): the error of Marshal is dropped. *)
Definition String (w : World) : text :=
  match Marshal (store w) (dm w) with
  | Some doc => Bytes doc
  | None => Empty
  end.

(** ** Goroutines, one shared-memory access at a time *)

(** What the environment decides at a step: which ready case a select runs,
    which entry a range over a map produces, what the driver returns. *)
Inductive choice : Type :=
| Auto
| TakeStop
| TakeTick
| NextKey (k : Z)
| EndOfMap
| Returns (r : reading).

(** Entering [for _, sensor := range dm.Sensors]: the keys present now are
    the ones the range must produce; keys added later may be produced or not. *)
Definition begin_pass (w : World) : cycle_pc :=
  AtRange (dom (Sensors (dm w))) ∅.

Definition closed (w : World) (c : option chan) : bool :=
  match c ≫= (chans w !!.) with
  | Some true => true
  | _ => false
  end.

(** One step of the goroutine of [StartReadCycle] (lines 68-82), with
    [sensor.read()] (lines 41-49) inlined. *)
Definition step_cycle (interval : Z) (ticker : option bool) (pc : cycle_pc)
    (c : choice) (w : World) : outcome (thread * World) :=
  match pc, c with
  | AtNewTicker, Auto =>
      if decide (interval ≤ 0) then Panic "non-positive interval for NewTicker"
      else Done (Cycle interval (Some false) (AtSelect (stopReading (dm w))), w)
  | AtSelect stop, TakeStop =>
      if closed w stop then Done (Cycle interval None Returned, w) else Blocked
  | AtSelect stop, TakeTick =>
      match ticker with
      | Some true => Done (Cycle interval (Some false) (begin_pass w), w)
      | _ => Blocked
      end
  | AtRange start visited, NextKey k =>
      match Sensors (dm w) !! k with
      | Some d =>
          if decide (k ∈ visited) then Blocked
          else Done (Cycle interval ticker (AtDriver start ({[k]} ∪ visited) d), w)
      | None => Blocked
      end
  | AtRange start visited, EndOfMap =>
      if decide (start ∩ dom (Sensors (dm w)) ⊆ visited)
      then Done (Cycle interval ticker AtSleep, w)
      else Blocked
  | AtDriver start visited d, Returns r =>
      v ← deref (store w) d;
      let w1 := with_driver_calls (driver_calls w ++ [pin v]) w in
      match err r with
      | Some _ =>
          Done (Cycle interval ticker (AtRange start visited),
                with_stdout (stdout w ++ [failure_line r]) w1)
      | None => Done (Cycle interval ticker (AtTemp start visited d r), w1)
      end
  | AtTemp start visited d r, Auto =>
      v ← deref (store w) d;
      Done (Cycle interval ticker (AtHumidity start visited d r),
            with_store (<[d := set_Temp (temperature r) v]> (store w)) w)
  | AtHumidity start visited d r, Auto =>
      v ← deref (store w) d;
      Done (Cycle interval ticker (AtRange start visited),
            with_store (<[d := set_Humidity (humidity r) v]> (store w)) w)
  | AtSleep, Auto => Done (Cycle interval ticker (begin_pass w), w)
  | _, _ => Blocked
  end.

Definition assign (f : setter_field) (v : string) (d : DHT22) : DHT22 :=
  match f with
  | FName => set_Name v d
  | FLocation => set_Location v d
  end.

(** One step of [SetName] or [SetLocation] (lines 29-39). *)
Definition step_setter (f : setter_field) (d : ptr) (v : string) (pc : setter_pc)
    (w : World) : outcome (thread * World) :=
  match pc with
  | AtLock =>
      x ← deref (store w) d;
      if mu x then Blocked
      else Done (Setter f d v AtAssign, with_store (<[d := set_mu true x]> (store w)) w)
  | AtAssign =>
      x ← deref (store w) d;
      Done (Setter f d v AtUnlock, with_store (<[d := assign f v x]> (store w)) w)
  | AtUnlock =>
      x ← deref (store w) d;
      Done (Setter f d v SetterReturned,
            with_store (<[d := set_mu false x]> (store w)) w)
  | SetterReturned => Blocked
  end.

Definition next_entry (acc : list (string * json)) (rest : list (string * ptr))
    : marshal_pc :=
  match rest with
  | [] => Marshalled (Bytes (JObject [("dht22", JObject acc)]))
  | (k, d) :: rest => AtField acc k d [] rest
  end.

(** One step of [json.Marshal(dm)] inside [String] (lines 89-92): the map is
    collected and sorted first, then each handle is read field by field.
    Nothing here takes the handle's lock. *)
Definition step_marshal (pc : marshal_pc) (w : World) : outcome (thread * World) :=
  match pc with
  | AtMap => Done (Stringer (next_entry [] (sorted_entries (Sensors (dm w)))), w)
  | AtField acc k d got rest =>
      match store w !! d with
      | None => Done (Stringer (next_entry (acc ++ [(k, JNull)]) rest), w)
      | Some v =>
          let i := length got in
          match field_names !! i, encode_field i v with
          | Some n, Some j =>
              let got' := got ++ [(n, j)] in
              if decide (length got' = length field_names)
              then Done (Stringer (next_entry (acc ++ [(k, JObject got')]) rest), w)
              else Done (Stringer (AtField acc k d got' rest), w)
          | _, _ => Done (Stringer (Marshalled Empty), w)
          end
      end
  | Marshalled _ => Blocked
  end.

Definition step_thread (t : thread) (c : choice) (w : World)
    : outcome (thread * World) :=
  match t with
  | Cycle interval ticker pc => step_cycle interval ticker pc c w
  | Setter f d v pc => step_setter f d v pc w
  | Stringer pc => step_marshal pc w
  end.

(** The ticker's period elapses: a tick is put in [ticker.C], which holds at
    most one. *)
Definition tick (t : thread) : thread :=
  match t with
  | Cycle interval (Some _) pc => Cycle interval (Some true) pc
  | _ => t
  end.

(** What can happen next in the program. *)
Inductive action : Type :=
| Call_NewDHT22 (pin : Z) (name location : string)
| Call_AddSensor (d : ptr)
| Call_StartReadCycle (interval : Z)
| Call_StopReadCycle
| Go_SetName (d : ptr) (name : string)         (* a goroutine calls d.SetName *)
| Go_SetLocation (d : ptr) (location : string)
| Go_String                                    (* a goroutine calls dm.String *)
| Step (i : nat) (c : choice)                  (* goroutine i takes a step *)
| Tick (i : nat).                              (* the ticker of goroutine i fires *)

Definition spawn (t : thread) (w : World) : World :=
  with_threads (threads w ++ [t]) w.

Definition perform (a : action) (w : World) : outcome World :=
  match a with
  | Call_NewDHT22 p n l => Done (new_DHT22 p n l w).2
  | Call_AddSensor d => AddSensor d w
  | Call_StartReadCycle interval => StartReadCycle interval w
  | Call_StopReadCycle => StopReadCycle w
  | Go_SetName d v => Done (spawn (Setter FName d v AtLock) w)
  | Go_SetLocation d v => Done (spawn (Setter FLocation d v AtLock) w)
  | Go_String => Done (spawn (Stringer AtMap) w)
  | Step i c =>
      match threads w !! i with
      | Some t =>
          '(t', w') ← step_thread t c w;
          Done (with_threads (<[i := t']> (threads w')) w')
      | None => Blocked
      end
  | Tick i =>
      match threads w !! i with
      | Some t => Done (with_threads (<[i := tick t]> (threads w)) w)
      | None => Blocked
      end
  end.

(** Running a schedule. *)
Fixpoint run (s : list action) (w : World) : outcome World :=
  match s with
  | [] => Done w
  | a :: s => w' ← perform a w; run s w'
  end.

(** One goroutine taking several steps in a row, nothing else running. *)
Fixpoint run_thread (cs : list choice) (t : thread) (w : World)
    : outcome (thread * World) :=
  match cs with
  | [] => Done (t, w)
  | c :: cs => '(t', w') ← step_thread t c w; run_thread cs t' w'
  end.

(** The steps of one [sensor.read()] whose driver call returns [r]. *)
Definition read_steps (r : reading) : list choice :=
  match err r with
  | Some _ => [Returns r]
  | None => [Returns r; Auto; Auto]
  end.

Definition ok_reading (t h : float64) : reading :=
  {| temperature := t; humidity := h; retried := 0; err := None |}.
Definition failed_reading (n : Z) : reading :=
  {| temperature := 0%float; humidity := 0%float; retried := n;
     err := Some "failed" |}.


(** ** Scenarios *)

(** The handle and the manager of TestDHTManager: one sensor on pin 19. *)
Definition top_of_tent : DHT22 := NewDHT22 19 "top of tent" "tent".

Definition test_setup : list action :=
  [Call_NewDHT22 19 "top of tent" "tent"; Call_AddSensor 0%nat].

(** [5 * time.Second], in nanoseconds. *)
Definition five_seconds : Z := 5000000000.

(** The read cycle is started, its goroutine reaches the select and takes
    the first tick. *)
Definition started_and_ticked : list action :=
  test_setup ++
  [Call_StartReadCycle five_seconds; Step 0 Auto; Tick 0; Step 0 TakeTick].

(** Goroutine [i] reads the sensor on pin 19 with success. *)
Definition read_19 (i : nat) (r : reading) : list action :=
  [Step i (NextKey 19); Step i (Returns r); Step i Auto; Step i Auto].

(** A second handle for pin 19, made after the first was added. *)
Definition duplicate_setup : list action :=
  test_setup ++ [Call_NewDHT22 19 "spare" "shed"].

(** Two calls of [StartReadCycle]; both goroutines take a tick and call the
    driver for pin 19. *)
Definition started_twice : list action :=
  test_setup ++
  [Call_StartReadCycle five_seconds; Call_StartReadCycle five_seconds;
   Step 0 Auto; Step 1 Auto; Tick 0; Tick 1; Step 0 TakeTick; Step 1 TakeTick;
   Step 0 (NextKey 19); Step 1 (NextKey 19);
   Step 0 (Returns (ok_reading 21.5 40)); Step 1 (Returns (ok_reading 21.5 40))].

(** One tick only; the stop channel is closed after the first pass; the
    goroutine wakes from its sleep and reads again. *)
Definition one_tick_two_passes : list action :=
  started_and_ticked ++ read_19 0 (ok_reading 21.5 40) ++ [Step 0 EndOfMap] ++
  [Call_StopReadCycle] ++
  [Step 0 Auto] ++ read_19 0 (ok_reading 22 41) ++ [Step 0 EndOfMap].

(** [String] runs in goroutine 1 while the read cycle (goroutine 0) stores
    a reading: Marshal has read temp, the cycle stores both fields, Marshal
    reads humidity. *)
Definition string_during_read : list action :=
  started_and_ticked ++
  [Go_String; Step 1 Auto; Step 1 Auto; Step 1 Auto; Step 1 Auto] ++
  read_19 0 (ok_reading 21.5 40) ++
  [Step 1 Auto].

(** The state a schedule leads to from [init]. *)
Definition after (s : list action) : World :=
  match run s init with
  | Done w => w
  | _ => init
  end.

(** What [String] returned in goroutine [i], once it has. *)
Definition returned_text (i : nat) (w : World) : option text :=
  match threads w !! i with
  | Some (Stringer (Marshalled t)) => Some t
  | _ => None
  end.

(** The document for one handle, from its fields. *)
Definition entry_of (d : DHT22) : json :=
  JObject [("name", JString (Name d)); ("location", JString (Location d));
           ("temp", JNumber (Temp d)); ("humidity", JNumber (Humidity d))].

(** The document for a manager whose only sensor is on pin 19. *)
Definition document_19 (d : DHT22) : json :=
  JObject [("dht22", JObject [("19", entry_of d)])].

(** The member encoding/json writes for the map entry [(k, d)]. *)
Definition member_of (store : list DHT22) (e : string * ptr) : string * json :=
  (e.1, match store !! e.2 with
        | Some v => entry_of v
        | None => JNull
        end).

(** The first read of pin 19 fails after 3 attempts. *)
Definition first_read_fails : list action :=
  started_and_ticked ++ [Step 0 (NextKey 19); Step 0 (Returns (failed_reading 3))].

(** The names of the members of an object. *)
Definition member_names (j : json) : list string :=
  match j with
  | JObject ms => ms.*1
  | _ => []
  end.

(** Making and adding one handle per descriptor [(pin, name, location)]. *)
Fixpoint register_all (ds : list (Z * string * string)) (w : World)
    : outcome World :=
  match ds with
  | [] => Done w
  | (p, n, l) :: ds =>
      w' ← AddSensor (new_DHT22 p n l w).1 (new_DHT22 p n l w).2;
      register_all ds w'
  end.

(** The handle [NewDHT22] makes for a descriptor. *)
Definition handle_of (a : Z * string * string) : DHT22 :=
  NewDHT22 a.1.1 a.1.2 a.2.

(** The snapshot entry of a handle that has never been read: its address in
    decimal, its name and location, and zero readings. *)
Definition fresh_member (a : Z * string * string) : string * json :=
  (itoa a.1.1,
   JObject [("name", JString a.1.2); ("location", JString a.2);
            ("temp", JNumber 0); ("humidity", JNumber 0)]).

(** Every goroutine of [StartReadCycle] has returned. *)
Definition all_returned (w : World) : Prop :=
  ∀ i interval ticker pc,
    threads w !! i = Some (Cycle interval ticker pc) → pc = Returned.

(** The temperature and humidity of every handle of [w] are the same in [w']. *)
Definition readings_frozen (w w' : World) : Prop :=
  ∀ d v, store w !! d = Some v →
    ∃ v', store w' !! d = Some v' ∧ Temp v' = Temp v ∧ Humidity v' = Humidity v.

(** ** Basic facts about steps *)

Definition is_start (a : action) : bool :=
  match a with
  | Call_StartReadCycle _ => true
  | _ => false
  end.

(** Schedules in which [StartReadCycle] is not called. *)
Definition no_start (s : list action) : Prop := Forall (λ a, is_start a = false) s.

(** ** Notions for the further properties *)

(** Every pin of the map leads to an allocated handle that carries this pin. *)
Definition well_keyed (w : World) : Prop :=
  ∀ p d, Sensors (dm w) !! p = Some d → ∃ v, store w !! d = Some v ∧ pin v = p.

(** Every handle of [w] is still at its address in [w'], with the same pin. *)
Definition pins_kept (w w' : World) : Prop :=
  ∀ d v, store w !! d = Some v → ∃ v', store w' !! d = Some v' ∧ pin v' = pin v.

(** Every handle of [w] is still at its address in [w'], with the same name,
    location, pin and lock state. *)
Definition identity_kept (w w' : World) : Prop :=
  ∀ d v, store w !! d = Some v →
    ∃ v', store w' !! d = Some v' ∧ Name v' = Name v ∧ Location v' = Location v ∧
          pin v' = pin v ∧ mu v' = mu v.

Definition is_stop (a : action) : bool :=
  match a with
  | Call_StopReadCycle => true
  | _ => false
  end.

Definition is_tick (a : action) : bool :=
  match a with
  | Tick _ => true
  | _ => false
  end.

(** The three methods that write to the manager. *)
Definition is_manager_call (a : action) : bool :=
  match a with
  | Call_AddSensor _ | Call_StartReadCycle _ | Call_StopReadCycle => true
  | _ => false
  end.

(** The read cycle is inside the loop of lines 75-80. *)
Definition in_loop (pc : cycle_pc) : bool :=
  match pc with
  | AtNewTicker | AtSelect _ | Returned => false
  | _ => true
  end.

(** A goroutine that is not a read cycle, or a read cycle that is before its
    select, in it with no tick in [ticker.C], or returned. *)
Definition waiting (t : thread) : bool :=
  match t with
  | Cycle _ _ AtNewTicker => true
  | Cycle _ ticker (AtSelect _) => bool_decide (ticker ≠ Some true)
  | Cycle _ _ Returned => true
  | Cycle _ _ _ => false
  | _ => true
  end.

(** The goroutine is a caller of [SetName] or [SetLocation]. *)
Definition is_setter (t : thread) : bool :=
  match t with
  | Setter _ _ _ _ => true
  | _ => false
  end.

(** The action starts a call of [SetName] or [SetLocation]. *)
Definition is_go_setter (a : action) : bool :=
  match a with
  | Go_SetName _ _ | Go_SetLocation _ _ => true
  | _ => false
  end.

(** The goroutine is between [d.Lock()] and the deferred [d.Unlock()]. *)
Definition holds_lock (d : ptr) (t : thread) : bool :=
  match t with
  | Setter _ d' _ AtAssign | Setter _ d' _ AtUnlock => bool_decide (d' = d)
  | _ => false
  end.

(** The lock discipline of the handles: a goroutine between Lock and Unlock
    of a handle finds that handle locked, and no two goroutines are between
    Lock and Unlock of the same handle. *)
Definition lock_respected (w : World) : Prop :=
  (∀ i t d, threads w !! i = Some t → holds_lock d t = true →
     ∃ v, store w !! d = Some v ∧ mu v = true) ∧
  (∀ i j ti tj d, threads w !! i = Some ti → threads w !! j = Some tj →
     holds_lock d ti = true → holds_lock d tj = true → i = j).

(** Where a pass over the map [m] stands once the driver has been called
    for the pins [l]: between two reads, about to call the driver for one
    more pin, or storing a reading. *)
Definition pass_at (m : gmap Z ptr) (l : list Z) (pc : cycle_pc) : Prop :=
  match pc with
  | AtRange start visited
  | AtTemp start visited _ _
  | AtHumidity start visited _ _ => start = dom m ∧ visited = list_to_set l
  | AtDriver start visited d =>
      start = dom m ∧
      ∃ k, m !! k = Some d ∧ (k ∉ l) ∧ visited = {[k]} ∪ list_to_set l
  | _ => False
  end.

(** Closes [x ∉ l] for a literal list [l] of strings distinct from [x]. *)
Ltac not_in_literal :=
  let H := fresh in
  intros H;
  repeat (apply elem_of_cons in H as [H|H]; [discriminate H|]);
  by apply elem_of_nil in H.

Ltac outcome_cases :=
  repeat match goal with
  | H : Panic _ = Done _ |- _ => discriminate H
  | H : Blocked = Done _ |- _ => discriminate H
  | H : context [mbind _ ?o] |- _ => unfold mbind, outcome_bind in H
  | H : context [deref ?s ?d] |- _ =>
      unfold deref in H; destruct (s !! d) eqn:?
  | H : context [match ?x with _ => _ end] |- _ =>
      destruct x eqn:?; try discriminate H
  | H : Done _ = Done _ |- _ => injection H as ?; subst
  | H : (_, _) = (_, _) |- _ => injection H as ?; subst
  end.

(** Goroutines never touch the manager's fields or the channels. *)
Lemma step_thread_frame t c w t' w' :
  step_thread t c w = Done (t', w') →
  dm w' = dm w ∧ chans w' = chans w ∧ threads w' = threads w.
Proof.
  destruct t as [interval ticker pc|f d v pc|pc]; simpl.
  - destruct pc, c; simpl; intros H; try discriminate H; outcome_cases; auto.
  - destruct pc; simpl; intros H; try discriminate H; outcome_cases; auto.
  - destruct pc; simpl; intros H; try discriminate H; outcome_cases; auto.
Qed.

Lemma perform_stopReading a w w' :
  is_start a = false → perform a w = Done w' →
  stopReading (dm w') = stopReading (dm w).
Proof.
  destruct a; simpl; try discriminate; intros _ H.
  - by injection H as <-.
  - unfold AddSensor in H. outcome_cases. done.
  - unfold StopReadCycle, close in H. outcome_cases. done.
  - by injection H as <-.
  - by injection H as <-.
  - by injection H as <-.
  - destruct (threads w !! i) as [t|] eqn:Ht; [|discriminate].
    destruct (step_thread t c w) as [[t' w1]| |] eqn:Hs; try discriminate.
    simpl in H. injection H as <-. apply step_thread_frame in Hs as (Hd & _).
    simpl. by rewrite Hd.
  - destruct (threads w !! i); [|discriminate]. by injection H as <-.
Qed.

(** A closed channel stays closed, whatever happens. *)
Lemma perform_closed a w w' c :
  perform a w = Done w' → chans w !! c = Some true → chans w' !! c = Some true.
Proof.
  destruct a; simpl; intros H Hc.
  - by injection H as <-.
  - unfold AddSensor in H. outcome_cases. done.
  - injection H as <-. simpl. by apply lookup_app_l_Some.
  - unfold StopReadCycle, close in H. outcome_cases. simpl.
    destruct (decide (n = c)) as [->|Hne].
    + rewrite list_lookup_insert_eq; [done|]. by eapply lookup_lt_Some.
    + by rewrite list_lookup_insert_ne.
  - by injection H as <-.
  - by injection H as <-.
  - by injection H as <-.
  - destruct (threads w !! i) as [t|] eqn:Ht; [|discriminate].
    destruct (step_thread t c0 w) as [[t' w1]| |] eqn:Hs; try discriminate.
    simpl in H. injection H as <-. apply step_thread_frame in Hs as (_ & Hd & _).
    simpl. by rewrite Hd.
  - destruct (threads w !! i); [|discriminate]. by injection H as <-.
Qed.

Lemma run_cons a s w :
  run (a :: s) w = (w' ← perform a w; run s w').
Proof. reflexivity. Qed.

Lemma run_Done_cons a s w w2 :
  run (a :: s) w = Done w2 → ∃ w1, perform a w = Done w1 ∧ run s w1 = Done w2.
Proof.
  rewrite run_cons. destruct (perform a w) as [w1| |]; try discriminate. eauto.
Qed.

Lemma run_stopReading s w w' :
  no_start s → run s w = Done w' → stopReading (dm w') = stopReading (dm w).
Proof.
  intros Hs. revert w. induction Hs as [|a s Ha _ IH]; intros w H.
  - by injection H as <-.
  - apply run_Done_cons in H as (w1 & H1 & H2).
    rewrite (IH _ H2). exact (perform_stopReading _ _ _ Ha H1).
Qed.

Lemma run_closed s w w' c :
  run s w = Done w' → chans w !! c = Some true → chans w' !! c = Some true.
Proof.
  revert w. induction s as [|a s IH]; intros w H Hc.
  - by injection H as <-.
  - apply run_Done_cons in H as (w1 & H1 & H2).
    apply (IH _ H2). exact (perform_closed _ _ _ _ H1 Hc).
Qed.

(** *** What can still change once every read cycle has returned *)

Lemma readings_frozen_refl w : readings_frozen w w.
Proof. intros d v Hv. eauto. Qed.

Lemma readings_frozen_store w w' : store w' = store w → readings_frozen w w'.
Proof. intros Hs d v Hv. rewrite Hs. eauto. Qed.

Lemma readings_frozen_trans w1 w2 w3 :
  readings_frozen w1 w2 → readings_frozen w2 w3 → readings_frozen w1 w3.
Proof.
  intros H12 H23 d v Hv.
  destruct (H12 _ _ Hv) as (v2 & Hv2 & <- & <-).
  destruct (H23 _ _ Hv2) as (v3 & Hv3 & <- & <-). eauto.
Qed.

(** Storing at [d] a value with the same readings keeps all readings. *)
Lemma readings_frozen_insert w d x x' :
  store w !! d = Some x → Temp x' = Temp x → Humidity x' = Humidity x →
  readings_frozen w (with_store (<[d := x']> (store w)) w).
Proof.
  intros Hx Ht Hh e v Hv. simpl. destruct (decide (d = e)) as [->|Hne].
  - exists x'. rewrite list_lookup_insert_eq by (by eapply lookup_lt_Some).
    split; [done|]. by simplify_eq.
  - exists v. by rewrite list_lookup_insert_ne.
Qed.

(** A setter or a Marshal step changes no reading and calls no driver. *)
Lemma step_caller_frozen t c w t' w' :
  (∀ interval ticker pc, t ≠ Cycle interval ticker pc) →
  step_thread t c w = Done (t', w') →
  (∀ interval ticker pc, t' ≠ Cycle interval ticker pc) ∧
  readings_frozen w w' ∧ driver_calls w' = driver_calls w.
Proof.
  intros Hcaller. destruct t as [interval ticker pc|f d v pc|pc]; simpl.
  - by destruct (Hcaller interval ticker pc).
  - destruct pc; simpl; intros H; try discriminate H; outcome_cases;
      (split; [done|]); (split; [|done]);
      eapply readings_frozen_insert; eauto.
    by destruct f.
    by destruct f.
  - destruct pc; simpl; intros H; try discriminate H; outcome_cases;
      (split; [try done|]); (split; [|done]); try apply readings_frozen_refl.
    all: unfold next_entry; intros; repeat case_match; done.
Qed.

(** A returned read cycle has no step left. *)
Lemma step_cycle_Returned interval ticker c w :
  step_cycle interval ticker Returned c w = Blocked.
Proof. by destruct c. Qed.

Lemma all_returned_spawn w t :
  all_returned w → (∀ interval ticker pc, t ≠ Cycle interval ticker pc) →
  all_returned (spawn t w).
Proof.
  intros Hall Ht i interval ticker pc. unfold spawn. simpl.
  intros [Hl|[_ Hl]]%lookup_app_Some; [by eapply Hall|].
  apply list_lookup_singleton_Some in Hl as [_ ->]. by destruct (Ht interval ticker pc).
Qed.

Lemma perform_frozen a w w' :
  all_returned w → is_start a = false → perform a w = Done w' →
  all_returned w' ∧ readings_frozen w w' ∧ driver_calls w' = driver_calls w.
Proof.
  intros Hall. destruct a; simpl; try discriminate; intros _ H.
  - injection H as <-. split; [done|]. split; [|done].
    intros d v Hv. exists v. simpl. split; [|done]. by apply lookup_app_l_Some.
  - unfold AddSensor in H. outcome_cases.
    split; [done|]. split; [by apply readings_frozen_store|done].
  - unfold StopReadCycle, close in H. outcome_cases.
    split; [done|]. split; [by apply readings_frozen_store|done].
  - injection H as <-. split; [by apply all_returned_spawn|].
    split; [by apply readings_frozen_store|done].
  - injection H as <-. split; [by apply all_returned_spawn|].
    split; [by apply readings_frozen_store|done].
  - injection H as <-. split; [by apply all_returned_spawn|].
    split; [by apply readings_frozen_store|done].
  - destruct (threads w !! i) as [t|] eqn:Ht; [|discriminate].
    destruct (step_thread t c w) as [[t' w1]| |] eqn:Hs; try discriminate.
    simpl in H. injection H as <-.
    assert (∀ interval ticker pc, t ≠ Cycle interval ticker pc) as Hcaller.
    { intros interval ticker pc ->. rewrite (Hall _ _ _ _ Ht) in Hs.
      unfold step_thread in Hs. by rewrite step_cycle_Returned in Hs. }
    destruct (step_caller_frozen _ _ _ _ _ Hcaller Hs) as (Ht' & Hfr & Hdc).
    apply step_thread_frame in Hs as (_ & _ & Hth).
    split; [|split; [exact Hfr|exact Hdc]].
    intros j interval ticker pc. simpl. rewrite Hth.
    destruct (decide (i = j)) as [<-|Hne].
    + rewrite list_lookup_insert_eq by (by eapply lookup_lt_Some).
      intros [= ->]. by destruct (Ht' interval ticker pc).
    + rewrite list_lookup_insert_ne by done. apply Hall.
  - destruct (threads w !! i) as [t|] eqn:Ht; [|discriminate]. injection H as <-.
    split; [|split; [by apply readings_frozen_store|done]].
    intros j interval ticker pc. simpl.
    destruct (decide (i = j)) as [<-|Hne].
    + rewrite list_lookup_insert_eq by (by eapply lookup_lt_Some).
      destruct t as [i0 [b|] pc0| |]; simpl; intros [= <- <- <-]; by eapply Hall.
    + rewrite list_lookup_insert_ne by done. apply Hall.
Qed.

Lemma run_frozen s w w' :
  all_returned w → no_start s → run s w = Done w' →
  all_returned w' ∧ readings_frozen w w' ∧ driver_calls w' = driver_calls w.
Proof.
  intros Hall Hs. revert w Hall. induction Hs as [|a s Ha _ IH]; intros w Hall H.
  - injection H as <-. split; [done|]. split; [apply readings_frozen_refl|done].
  - apply run_Done_cons in H as (w1 & H1 & H2).
    destruct (perform_frozen _ _ _ Hall Ha H1) as (Hall1 & Hfr1 & Hdc1).
    destruct (IH _ Hall1 H2) as (Hall2 & Hfr2 & Hdc2).
    split; [done|]. split; [by eapply readings_frozen_trans|congruence].
Qed.

(** *** The document of [String] *)

Lemma encode_DHT22_eq v :
  encode_DHT22 v
    = if finite (Temp v) && finite (Humidity v) then Some (entry_of v) else None.
Proof.
  unfold encode_DHT22, entry_of. simpl. unfold encode_float.
  by destruct (finite (Temp v)), (finite (Humidity v)).
Qed.

Lemma encode_member store e y :
  (let '(k, p) := e in pair k <$> encode_ptr store p) = Some y →
  y = member_of store e.
Proof.
  destruct e as [k p]. unfold encode_ptr, member_of. simpl.
  destruct (store !! p) as [v|]; simpl.
  - rewrite encode_DHT22_eq. case_match; [|done]. by intros [= <-].
  - by intros [= <-].
Qed.

Lemma encode_Sensors_Some store m j :
  encode_Sensors store m = Some j →
  j = JObject (member_of store <$> sorted_entries m).
Proof.
  unfold encode_Sensors. intros (ms & Hms & ->)%fmap_Some. f_equal.
  apply mapM_Some_1 in Hms.
  induction Hms as [|e y es ys He _ IH]; [done|]. simpl.
  f_equal; [|done]. by apply encode_member.
Qed.

Lemma sorted_entries_perm m :
  sorted_entries m ≡ₚ prod_map itoa id <$> map_to_list m.
Proof. apply merge_sort_Permutation. Qed.

Lemma elem_of_sorted_entries m k d :
  (k, d) ∈ sorted_entries m → ∃ p, k = itoa p ∧ m !! p = Some d.
Proof.
  rewrite sorted_entries_perm. intros ([p d'] & [= -> ->] & Hin)%list_elem_of_fmap.
  exists p. split; [done|]. by apply elem_of_map_to_list.
Qed.

Lemma String_Bytes w doc :
  String w = Bytes doc →
  doc = JObject [("dht22",
          JObject (member_of (store w) <$> sorted_entries (Sensors (dm w))))].
Proof.
  unfold String, Marshal.
  destruct (encode_Sensors (store w) (Sensors (dm w))) as [j|] eqn:Hj; [|done].
  simpl. intros [= <-]. by rewrite (encode_Sensors_Some _ _ _ Hj).
Qed.

(** *** Calls that run without interference

    The steps of a call, taken in a row, have the effect of the call's
    definition as one function. *)

(** X16. One [sensor.read()] inside the read cycle, run without
    interference, calls the driver once, for the handle's pin, and leaves the
    handle and the output exactly as [read] gives them; the manager, the
    channels and the goroutines are untouched, and the cycle is back in its
    range over the map. *)
Lemma read_steps_read interval ticker start visited d r w v :
  store w !! d = Some v →
  ∃ w', run_thread (read_steps r) (Cycle interval ticker (AtDriver start visited d)) w
          = Done (Cycle interval ticker (AtRange start visited), w') ∧
        store w' = <[d := (read r v).1]> (store w) ∧
        stdout w' = stdout w ++ (read r v).2 ∧
        driver_calls w' = driver_calls w ++ [pin v] ∧
        dm w' = dm w ∧ chans w' = chans w ∧ threads w' = threads w.
Proof.
  intros Hv. unfold read_steps, read. destruct (err r) as [e|] eqn:He.
  - simpl. unfold deref. rewrite Hv. simpl. rewrite He.
    eexists. split; [reflexivity|]. simpl. rewrite list_insert_id by done.
    by rewrite app_nil_r || done.
  - simpl. unfold deref. rewrite Hv. simpl. rewrite He. simpl.
    unfold deref. rewrite Hv. simpl. unfold deref. simpl.
    rewrite list_lookup_insert_eq by (by eapply lookup_lt_Some). simpl.
    eexists. split; [reflexivity|]. simpl.
    rewrite list_insert_insert_eq. rewrite app_nil_r. done.
Qed.

Lemma deref_insert s d x y :
  s !! d = Some x → deref (<[d := y]> s) d = Done y.
Proof.
  intros Hx. unfold deref.
  by rewrite list_lookup_insert_eq by (by eapply lookup_lt_Some).
Qed.

Lemma setter_steps f d v w x :
  store w !! d = Some x → mu x = false →
  run_thread [Auto; Auto; Auto] (Setter f d v AtLock) w
    = Done (Setter f d v SetterReturned,
            with_store (<[d := assign f v x]> (store w)) w).
Proof.
  intros Hx Hmu. simpl. unfold deref at 1. rewrite Hx. simpl. rewrite Hmu. simpl.
  rewrite (deref_insert _ _ _ _ Hx). simpl.
  rewrite list_insert_insert_eq, (deref_insert _ _ _ _ Hx). simpl.
  rewrite list_insert_insert_eq. unfold with_store. simpl. do 4 f_equal.
  destruct x, f; simpl in *; by subst.
Qed.

(** Marshal, alone, from any entry on. *)
Lemma marshal_steps_from w rest acc :
  ∃ n, run_thread (replicate n Auto) (Stringer (next_entry acc rest)) w
       = Done (Stringer (Marshalled
            match mapM (λ '(k, p), pair k <$> encode_ptr (store w) p) rest with
            | Some ms => Bytes (JObject [("dht22", JObject (acc ++ ms))])
            | None => Empty
            end), w).
Proof.
  revert acc. induction rest as [|[k d] rest IH]; intros acc.
  - exists 0%nat. simpl. by rewrite app_nil_r.
  - set (f := λ '(k, p), pair k <$> encode_ptr (store w) p) in *.
    change (mapM f ((k, d) :: rest))
      with (f (k, d) ≫= λ y, mapM f rest ≫= λ ks, mret (y :: ks)).
    change (f (k, d)) with (pair k <$> encode_ptr (store w) d).
    unfold encode_ptr. destruct (store w !! d) as [v|] eqn:Hv.
    + rewrite encode_DHT22_eq.
      destruct (finite (Temp v)) eqn:Ht; [destruct (finite (Humidity v)) eqn:Hh|].
      * destruct (IH (acc ++ [(k, entry_of v)])) as [n Hn].
        exists (4 + n)%nat.
        repeat (progress (simpl; unfold encode_float; rewrite ?Hv, ?Ht, ?Hh)).
        unfold entry_of in Hn. rewrite Hn.
        destruct (mapM f rest); simpl; [|done]. by rewrite <- app_assoc.
      * exists 4%nat.
        by repeat (progress (simpl; unfold encode_float; rewrite ?Hv, ?Ht, ?Hh)).
      * exists 3%nat.
        by repeat (progress (simpl; unfold encode_float; rewrite ?Hv, ?Ht)).
    + destruct (IH (acc ++ [(k, JNull)])) as [n Hn].
      exists (1 + n)%nat. simpl. rewrite Hv. simpl. rewrite Hn.
      destruct (mapM f rest); simpl; [|done]. by rewrite <- app_assoc.
Qed.

(** X17. A call of [String] that runs without interference ends, changes
    nothing, and returns what [String] gives as one function on the state it
    started in: the document, or the empty string when a reading cannot be
    encoded. *)
Lemma marshal_steps_String w :
  ∃ n, run_thread (replicate n Auto) (Stringer AtMap) w
       = Done (Stringer (Marshalled (String w)), w).
Proof.
  destruct (marshal_steps_from w (sorted_entries (Sensors (dm w))) []) as [n Hn].
  exists (S n). simpl. rewrite Hn. unfold String, Marshal, encode_Sensors.
  by destruct (mapM _ _).
Qed.

(** *** Registering a list of sensors *)

Lemma register_all_spec ds w :
  NoDup ds.*1.*1 →
  (∀ p, p ∈ ds.*1.*1 → Sensors (dm w) !! p = None) →
  ∃ w', register_all ds w = Done w' ∧
        store w' = store w ++ (handle_of <$> ds) ∧
        map_to_list (Sensors (dm w'))
          ≡ₚ zip ds.*1.*1 (seq (length (store w)) (length ds))
             ++ map_to_list (Sensors (dm w)).
Proof.
  revert w. induction ds as [|[[p n] l] ds IH]; intros w Hnodup Hfresh.
  - exists w. simpl. by rewrite app_nil_r.
  - simpl in Hnodup. apply NoDup_cons in Hnodup as [Hp Hnodup].
    simpl. unfold AddSensor, deref. simpl.
    rewrite list_lookup_middle by done. simpl.
    set (w2 := with_dm _ _).
    destruct (IH w2 Hnodup) as (w' & Hrun & Hstore & Hmap).
    { intros q Hq. subst w2. simpl. rewrite lookup_insert_ne.
      - apply Hfresh. simpl. by right.
      - intros ->. done. }
    exists w'. split; [exact Hrun|]. split.
    + rewrite Hstore. subst w2. simpl. by rewrite <- app_assoc.
    + rewrite Hmap. subst w2. simpl. rewrite length_app. simpl.
      rewrite Nat.add_1_r.
      rewrite map_to_list_insert by (apply Hfresh; simpl; by left).
      by rewrite Permutation_middle.
Qed.

(** The members written for freshly made handles stored from address
    [length store0] on. *)
Lemma member_of_fresh ds store0 :
  member_of (store0 ++ (handle_of <$> ds))
    <$> (prod_map itoa id <$> zip ds.*1.*1 (seq (length store0) (length ds)))
  = fresh_member <$> ds.
Proof.
  revert store0. induction ds as [|a ds IH]; intros store0; [done|].
  simpl. f_equal.
  - unfold member_of, fresh_member. simpl.
    by rewrite list_lookup_middle.
  - specialize (IH (store0 ++ [handle_of a])).
    rewrite length_app, <- app_assoc in IH. simpl in IH.
    rewrite Nat.add_1_r in IH. exact IH.
Qed.

(** ** The claims *)

(** C10. A manager made by [NewManager] on which [StartReadCycle] was never
    called has a nil [stopReading], and [StopReadCycle] panics on it with
    "close of nil channel". *)
Theorem StopReadCycle_before_start_panics s w :
  no_start s → run s init = Done w →
  stopReading (dm w) = None ∧ StopReadCycle w = Panic "close of nil channel".
Proof.
  intros Hs H. pose proof (run_stopReading _ _ _ Hs H) as Hnil. simpl in Hnil.
  split; [done|]. unfold StopReadCycle. by rewrite Hnil.
Qed.

Lemma StopReadCycle_before_start_panics_witness :
  ∃ w, run test_setup init = Done w ∧ stopReading (dm w) = None ∧
       StopReadCycle w = Panic "close of nil channel".
Proof.
  eexists. split; [reflexivity|].
  apply (StopReadCycle_before_start_panics test_setup).
  - repeat constructor.
  - reflexivity.
Defined.

(** C8, as the code has it. Once [StopReadCycle] has returned, calling it
    again before any further [StartReadCycle] panics with "close of closed
    channel": it does not return. *)
Theorem StopReadCycle_twice_panics w w1 s w2 :
  StopReadCycle w = Done w1 → no_start s → run s w1 = Done w2 →
  StopReadCycle w2 = Panic "close of closed channel".
Proof.
  intros H1 Hs H2. unfold StopReadCycle, close in H1.
  destruct (stopReading (dm w)) as [c|] eqn:Hc; [|discriminate].
  destruct (chans w !! c) as [[]|] eqn:Hl; try discriminate.
  injection H1 as <-.
  pose proof (run_stopReading _ _ _ Hs H2) as Hsame. simpl in Hsame.
  assert (chans w2 !! c = Some true) as Hclosed.
  { apply (run_closed _ _ _ _ H2). simpl.
    apply list_lookup_insert_eq. by eapply lookup_lt_Some. }
  unfold StopReadCycle, close. by rewrite Hsame, Hc, Hclosed.
Qed.

Lemma StopReadCycle_twice_panics_witness :
  StopReadCycle (after [Call_StartReadCycle five_seconds])
    = Done (after [Call_StartReadCycle five_seconds; Call_StopReadCycle]) ∧
  StopReadCycle (after [Call_StartReadCycle five_seconds; Call_StopReadCycle])
    = Panic "close of closed channel".
Proof.
  split; [reflexivity|].
  apply (StopReadCycle_twice_panics
           (after [Call_StartReadCycle five_seconds])
           (after [Call_StartReadCycle five_seconds; Call_StopReadCycle]) []).
  - reflexivity.
  - constructor.
  - reflexivity.
Defined.

(** C8, as stated, fails: the second of two calls of [StopReadCycle] panics. *)
Lemma StopReadCycle_second_call_panics :
  run [Call_StartReadCycle five_seconds; Call_StopReadCycle; Call_StopReadCycle]
      init = Panic "close of closed channel".
Proof. reflexivity. Qed.

(** C3, as the code has it. [AddSensor] of a handle whose pin is already in
    the map returns normally (it has no error to return) and makes the map
    send that pin to the new handle; the other pins, the handles, the stop
    channel and the goroutines are as before. *)
Theorem AddSensor_duplicate_replaces w dht v :
  store w !! dht = Some v → is_Some (Sensors (dm w) !! pin v) →
  ∃ w', AddSensor dht w = Done w' ∧
        Sensors (dm w') !! pin v = Some dht ∧
        (∀ k, k ≠ pin v → Sensors (dm w') !! k = Sensors (dm w) !! k) ∧
        dom (Sensors (dm w')) = dom (Sensors (dm w)) ∧
        store w' = store w ∧ stopReading (dm w') = stopReading (dm w) ∧
        threads w' = threads w.
Proof.
  intros Hv Hdup. unfold AddSensor, deref. rewrite Hv. simpl.
  eexists. split; [reflexivity|]. simpl. repeat split.
  - apply lookup_insert_eq.
  - intros k Hk. by apply lookup_insert_ne.
  - rewrite dom_insert_L. apply subseteq_union_1_L.
    by apply singleton_subseteq_l, elem_of_dom.
Qed.

Lemma AddSensor_duplicate_replaces_witness :
  ∃ w', AddSensor 1%nat (after duplicate_setup) = Done w' ∧
        Sensors (dm w') !! 19 = Some 1%nat.
Proof.
  destruct (AddSensor_duplicate_replaces (after duplicate_setup) 1%nat
              (NewDHT22 19 "spare" "shed"))
    as (w' & H & Hl & _).
  - reflexivity.
  - exists 0%nat. reflexivity.
  - exists w'. split; [exact H|exact Hl].
Defined.

(** C3, as stated, fails: pin 19 is registered for handle 0; adding handle 1,
    also on pin 19, returns normally and the map then holds handle 1. *)
Lemma AddSensor_duplicate_changes_map :
  Sensors (dm (after duplicate_setup)) !! 19 = Some 0%nat ∧
  pin <$> store (after duplicate_setup) !! 1%nat = Some 19 ∧
  ∃ w', AddSensor 1%nat (after duplicate_setup) = Done w' ∧
        Sensors (dm w') !! 19 = Some 1%nat ∧
        Sensors (dm w') ≠ Sensors (dm (after duplicate_setup)).
Proof.
  split; [reflexivity|]. split; [reflexivity|].
  eexists. split; [reflexivity|]. split; [reflexivity|].
  intros Heq. apply (f_equal (λ m : gmap Z nat, m !! 19)) in Heq.
  vm_compute in Heq. discriminate Heq.
Qed.

(** C7, as the code has it. [StartReadCycle] always returns normally,
    whatever was started before: it makes a fresh open channel, stores it in
    [stopReading] in place of the previous one, and adds one more goroutine
    next to those already there.  A [StopReadCycle] that follows closes that
    newest channel only. *)
Theorem StartReadCycle_adds_goroutine interval w :
  ∃ w', StartReadCycle interval w = Done w' ∧
        threads w' = threads w ++ [Cycle interval None AtNewTicker] ∧
        stopReading (dm w') = Some (length (chans w)) ∧
        chans w' = chans w ++ [false] ∧
        Sensors (dm w') = Sensors (dm w) ∧ store w' = store w ∧
        ∃ w'', StopReadCycle w' = Done w'' ∧
               chans w'' = chans w ++ [true] ∧ threads w'' = threads w'.
Proof.
  eexists. split; [reflexivity|]. simpl. repeat (split; [reflexivity|]).
  unfold StopReadCycle, close. simpl.
  rewrite list_lookup_middle by done.
  eexists. split; [reflexivity|]. simpl. split; [|reflexivity].
  rewrite insert_app_r_alt by done. by rewrite Nat.sub_diag.
Qed.

(** C7, as stated, fails: after two calls of [StartReadCycle] two goroutines
    poll the sensor on pin 19, each calling the driver in its own pass. *)
Lemma StartReadCycle_twice_polls_twice :
  ∃ w pass0 pass1,
    run started_twice init = Done w ∧
    threads w = [Cycle five_seconds (Some false) pass0;
                 Cycle five_seconds (Some false) pass1] ∧
    pass0 ≠ Returned ∧ pass1 ≠ Returned ∧
    driver_calls w = [19; 19].
Proof.
  eexists _, _, _. split; [vm_compute; reflexivity|].
  split; [reflexivity|]. repeat split; discriminate.
Qed.

(** C4, as the code has it. After a driver failure [read] leaves the whole
    handle as it was and prints one line with the attempt count; after a
    driver success it stores the temperature and the humidity, changes no
    other field and prints nothing.  The handle has no field that records a
    failure. *)
Theorem read_effect r d :
  (is_Some (err r) → read r d = (d, [failure_line r])) ∧
  (err r = None →
     Temp (read r d).1 = temperature r ∧ Humidity (read r d).1 = humidity r ∧
     Name (read r d).1 = Name d ∧ Location (read r d).1 = Location d ∧
     pin (read r d).1 = pin d ∧ mu (read r d).1 = mu d ∧ (read r d).2 = []).
Proof.
  unfold read. split.
  - intros [e ->]. reflexivity.
  - intros ->. simpl. auto 10.
Qed.

Lemma read_effect_witness :
  read (failed_reading 3) top_of_tent
    = (top_of_tent, [failure_line (failed_reading 3)]) ∧
  Temp (read (ok_reading 21.5 40) top_of_tent).1 = 21.5%float.
Proof.
  split.
  - apply (read_effect (failed_reading 3) top_of_tent). exists "failed". reflexivity.
  - apply (read_effect (ok_reading 21.5 40) top_of_tent). reflexivity.
Defined.

(** C4, as stated, fails: a failed read and a successful read of the values
    already stored leave the same handle, so nothing on the handle tells a
    recorded failure from a cleared one. *)
Lemma read_records_no_error :
  ¬ ∃ lastError : DHT22 → bool,
      lastError (read (failed_reading 3) top_of_tent).1 = true ∧
      lastError (read (ok_reading 0 0) top_of_tent).1 = false.
Proof.
  intros (lastError & Hfail & Hok).
  change (read (failed_reading 3) top_of_tent).1 with top_of_tent in Hfail.
  change (read (ok_reading 0 0) top_of_tent).1 with top_of_tent in Hok.
  congruence.
Qed.

(** C1, as the code has it by design. [StopReadCycle] closes the stop channel
    and returns at once: it waits for no goroutine and touches no handle.  A
    read cycle that is in its select on that channel can then take the stop
    case, which stops the ticker and returns.  A read cycle that has returned
    never calls the driver again: from a state in which every read cycle has
    returned, and until [StartReadCycle] is called again, the temperature and
    humidity of every handle stay as they are. *)
Theorem StopReadCycle_returns_at_once w w1 :
  StopReadCycle w = Done w1 →
  (closed w1 (stopReading (dm w)) = true ∧ store w1 = store w ∧
   threads w1 = threads w ∧ driver_calls w1 = driver_calls w) ∧
  (∀ s w2 i interval ticker,
     run s w1 = Done w2 →
     threads w2 !! i = Some (Cycle interval ticker (AtSelect (stopReading (dm w)))) →
     perform (Step i TakeStop) w2
       = Done (with_threads (<[i := Cycle interval None Returned]> (threads w2)) w2)) ∧
  (∀ s w2 s' w3,
     run s w1 = Done w2 → all_returned w2 → no_start s' → run s' w2 = Done w3 →
     all_returned w3 ∧ readings_frozen w2 w3 ∧ driver_calls w3 = driver_calls w2).
Proof.
  intros H. unfold StopReadCycle, close in H.
  destruct (stopReading (dm w)) as [c|] eqn:Hc; [|discriminate].
  destruct (chans w !! c) as [[]|] eqn:Hl; try discriminate.
  injection H as <-.
  assert (chans (with_chans (<[c:=true]> (chans w)) w) !! c = Some true) as Hclosed.
  { simpl. apply list_lookup_insert_eq. by eapply lookup_lt_Some. }
  split; [|split].
  - unfold closed. simpl in *. by rewrite Hclosed.
  - intros s w2 i interval ticker Hrun Hi. simpl. rewrite Hi. simpl.
    unfold closed. simpl. by rewrite (run_closed _ _ _ _ Hrun Hclosed).
  - intros s w2 s' w3 _ Hall Hs' Hrun. by apply (run_frozen s').
Qed.

Lemma StopReadCycle_returns_at_once_witness :
  threads (after (test_setup ++ [Call_StartReadCycle five_seconds; Step 0 Auto;
                                 Call_StopReadCycle]))
    = [Cycle five_seconds (Some false) (AtSelect (Some 0%nat))] ∧
  readings_frozen
    (after (test_setup ++ [Call_StartReadCycle five_seconds; Step 0 Auto;
                           Call_StopReadCycle; Step 0 TakeStop]))
    (after (test_setup ++ [Call_StartReadCycle five_seconds; Step 0 Auto;
                           Call_StopReadCycle; Step 0 TakeStop;
                           Tick 0; Go_SetName 0 "roof"; Step 1 Auto; Step 1 Auto])).
Proof.
  destruct (StopReadCycle_returns_at_once
              (after (test_setup ++ [Call_StartReadCycle five_seconds; Step 0 Auto]))
              (after (test_setup ++ [Call_StartReadCycle five_seconds; Step 0 Auto;
                                     Call_StopReadCycle])))
    as ((_ & _ & Hthreads & _) & _ & Hfrozen).
  - reflexivity.
  - split; [exact Hthreads|].
    apply (Hfrozen [Step 0 TakeStop] _
                   [Tick 0; Go_SetName 0%nat "roof"; Step 1 Auto; Step 1 Auto]).
    + reflexivity.
    + intros [|[|i]] interval ticker pc; simpl; intros [=]; by subst.
    + repeat constructor.
    + reflexivity.
Defined.

(** C1, as stated, fails: the read cycle has taken its first tick;
    [StopReadCycle] returns; the goroutine then calls the driver for pin 19
    and stores a new temperature and humidity. *)
Lemma read_after_StopReadCycle :
  ∃ w w1 w2,
    run started_and_ticked init = Done w ∧
    StopReadCycle w = Done w1 ∧
    run (read_19 0 (ok_reading 21.5 40)) w1 = Done w2 ∧
    driver_calls w1 = [] ∧ driver_calls w2 = [19] ∧
    store w1 = [top_of_tent] ∧
    store w2 = [set_Humidity 40 (set_Temp 21.5 top_of_tent)].
Proof.
  eexists _, _, _. split; [vm_compute; reflexivity|].
  split; [vm_compute; reflexivity|].
  split; [vm_compute; reflexivity|].
  repeat split; reflexivity.
Qed.

(** C2, at the failing input. One tick is delivered and taken; the first
    pass reads pin 19; the stop channel is then closed and no further tick is
    taken, yet the goroutine leaves its sleep and makes a second pass. *)
Theorem read_cycle_passes_without_ticks :
  ∃ w,
    run one_tick_two_passes init = Done w ∧
    closed w (stopReading (dm w)) = true ∧
    threads w = [Cycle five_seconds (Some false) AtSleep] ∧
    driver_calls w = [19; 19] ∧
    store w = [set_Humidity 41 (set_Temp 22 top_of_tent)].
Proof.
  eexists. split; [vm_compute; reflexivity|]. repeat split; reflexivity.
Qed.

(** Past the select, the loop of lines 75-80 has no way out: whatever the
    stop channel and the ticker do, no step leads back to the select or to a
    return, and the sleep always ends in a new pass. *)
Lemma pass_loop_never_exits interval ticker pc c w interval' ticker' pc' w' :
  pc ≠ AtNewTicker → (∀ stop, pc ≠ AtSelect stop) →
  step_cycle interval ticker pc c w = Done (Cycle interval' ticker' pc', w') →
  pc' ≠ Returned ∧ pc' ≠ AtNewTicker ∧ (∀ stop, pc' ≠ AtSelect stop).
Proof.
  intros Hnew Hsel H.
  destruct pc, c; simpl in H; try discriminate H; try congruence;
    try (by destruct (Hsel stop)); outcome_cases; by repeat split.
Qed.

Lemma sleep_always_wakes interval ticker w :
  step_cycle interval ticker AtSleep Auto w
    = Done (Cycle interval ticker (begin_pass w), w).
Proof. reflexivity. Qed.

(** C9, at the failing input. [String] runs while the read cycle stores a
    reading: the handle holds (0, 0) before the read and (21.5, 40) after it,
    and the document [String] returns pairs temperature 0 with humidity 40. *)
Theorem String_during_read_is_torn :
  ∃ w,
    run string_during_read init = Done w ∧
    returned_text 1 w = Some (Bytes (document_19 (set_Humidity 40 top_of_tent))) ∧
    String (after started_and_ticked) = Bytes (document_19 top_of_tent) ∧
    String w = Bytes (document_19 (set_Humidity 40 (set_Temp 21.5 top_of_tent))).
Proof.
  eexists. split; [vm_compute; reflexivity|]. repeat split; reflexivity.
Qed.

(** C6, as the code has it. Whenever [String] yields a document (it yields
    the empty string when Marshal fails), and no nil handle is in the map,
    the document is an object whose only member, dht22, is a collection
    keyed by the decimal text of each registered pin, in which each entry
    carries exactly the fields name, location, temp and humidity, holding the
    handle's four exported fields.  No entry ever has a lastError field. *)
Theorem String_fields w doc :
  (∀ k d, Sensors (dm w) !! k = Some d → is_Some (store w !! d)) →
  String w = Bytes doc →
  ∃ ms, doc = JObject [("dht22", JObject ms)] ∧
        ms = member_of (store w) <$> sorted_entries (Sensors (dm w)) ∧
        ms.*1 ≡ₚ itoa <$> (map_to_list (Sensors (dm w))).*1 ∧
        Forall (λ e, member_names e.2 = ["name"; "location"; "temp"; "humidity"]
                     ∧ "lastError" ∉ member_names e.2) ms.
Proof.
  intros Hnonnil ->%String_Bytes. eexists. split; [reflexivity|].
  split; [reflexivity|]. split.
  - rewrite <- list_fmap_compose.
    rewrite (list_fmap_ext (fst ∘ member_of (store w)) fst
               (sorted_entries (Sensors (dm w)))) by done.
    rewrite sorted_entries_perm, <- !list_fmap_compose. done.
  - apply Forall_fmap, Forall_forall. intros [k d] Hin.
    apply elem_of_sorted_entries in Hin as (p & _ & Hp).
    destruct (Hnonnil _ _ Hp) as [v Hv]. unfold member_of. simpl. rewrite Hv.
    split; [reflexivity|]. simpl. not_in_literal.
Qed.

Lemma String_fields_witness :
  ∃ ms, String (after first_read_fails) = Bytes (JObject [("dht22", JObject ms)]) ∧
        Forall (λ e, member_names e.2 = ["name"; "location"; "temp"; "humidity"]
                     ∧ "lastError" ∉ member_names e.2) ms.
Proof.
  destruct (String_fields (after first_read_fails) (document_19 top_of_tent))
    as (ms & Hdoc & _ & _ & Hfields).
  - intros k d Hk.
    change (Sensors (dm (after first_read_fails)))
      with (<[19 := 0%nat]> (∅ : gmap Z nat)) in Hk.
    apply lookup_insert_Some in Hk as [[_ <-]|[_ Hk]]; [by eexists|].
    by rewrite lookup_empty in Hk.
  - reflexivity.
  - exists ms. split; [|exact Hfields]. rewrite <- Hdoc. reflexivity.
Defined.

(** C6, as stated, fails: after a failed read of pin 19 the entry for "19"
    has the fields name, location, temp and humidity: none is named
    temperature, and the failure on record adds no lastError. *)
Lemma String_has_temp_and_no_lastError :
  stdout (after first_read_fails) = [failure_line (failed_reading 3)] ∧
  String (after first_read_fails)
    = Bytes (JObject [("dht22", JObject [("19", entry_of top_of_tent)])]) ∧
  member_names (entry_of top_of_tent) = ["name"; "location"; "temp"; "humidity"] ∧
  ("temperature" ∉ member_names (entry_of top_of_tent)) ∧
  ("lastError" ∉ member_names (entry_of top_of_tent)).
Proof.
  split; [reflexivity|]. split; [reflexivity|]. split; [reflexivity|].
  simpl. split; not_in_literal.
Qed.

(** C5. After any sequence of registrations with pairwise distinct pins on a
    fresh manager, each of a newly made handle, [String] yields a document
    whose dht22 collection holds exactly one entry per registered pin, keyed
    by it, with the handle's name and location and zero temperature and
    humidity. *)
Theorem String_after_registering ds w :
  dm w = NewManager → NoDup ds.*1.*1 →
  ∃ w' ms, register_all ds w = Done w' ∧
           String w' = Bytes (JObject [("dht22", JObject ms)]) ∧
           ms ≡ₚ fresh_member <$> ds.
Proof.
  intros Hdm Hnodup.
  destruct (register_all_spec ds w Hnodup) as (w' & Hrun & Hstore & Hmap).
  { intros p _. by rewrite Hdm. }
  rewrite Hdm in Hmap. simpl in Hmap.
  rewrite map_to_list_empty, app_nil_r in Hmap.
  assert (sorted_entries (Sensors (dm w'))
            ≡ₚ prod_map itoa id <$> zip ds.*1.*1 (seq (length (store w)) (length ds)))
    as Hsorted.
  { by rewrite sorted_entries_perm, Hmap. }
  exists w', (member_of (store w') <$> sorted_entries (Sensors (dm w'))).
  split; [exact Hrun|]. split.
  - unfold String, Marshal, encode_Sensors.
    erewrite mapM_Some_2; [reflexivity|].
    apply Forall2_fmap_r, Forall_Forall2_diag, Forall_forall.
    intros [k d] Hin. rewrite Hsorted in Hin.
    apply list_elem_of_fmap in Hin as ([p d'] & [= -> ->] & Hin).
    apply list_elem_of_lookup in Hin as [i Hi].
    apply lookup_zip_with_Some in Hi as (p' & d'' & [= <- <-] & _ & Hd).
    apply lookup_seq in Hd as [-> Hi].
    unfold member_of, encode_ptr. simpl. rewrite Hstore.
    rewrite lookup_app_r, Nat.add_comm, Nat.add_sub by lia.
    rewrite list_lookup_fmap.
    destruct (ds !! i) as [a|] eqn:Ha.
    + reflexivity.
    + apply lookup_ge_None in Ha. lia.
  - rewrite Hsorted, Hstore. by rewrite member_of_fresh.
Qed.

Lemma String_after_registering_witness :
  ∃ w' ms,
    register_all [(4, "Living Room", "Home"); (19, "top of tent", "tent")] init
      = Done w' ∧
    String w' = Bytes (JObject [("dht22", JObject ms)]) ∧
    ms ≡ₚ fresh_member
            <$> [(4, "Living Room", "Home"); (19, "top of tent", "tent")].
Proof.
  apply (String_after_registering
           [(4, "Living Room", "Home"); (19, "top of tent", "tent")] init).
  - reflexivity.
  - simpl. apply NoDup_cons. split; [not_in_literal|]. apply NoDup_singleton.
Defined.

(** * Further properties of the package *)

(** ** What never changes *)

Lemma pins_kept_refl w : pins_kept w w.
Proof. intros d v Hv. eauto. Qed.

Lemma pins_kept_store w w' : store w' = store w → pins_kept w w'.
Proof. intros Hs d v Hv. rewrite Hs. eauto. Qed.

Lemma pins_kept_trans w1 w2 w3 :
  pins_kept w1 w2 → pins_kept w2 w3 → pins_kept w1 w3.
Proof.
  intros H12 H23 d v Hv.
  destruct (H12 _ _ Hv) as (v2 & Hv2 & <-). by apply H23.
Qed.

Lemma identity_kept_store w w' : store w' = store w → identity_kept w w'.
Proof. intros Hs d v Hv. rewrite Hs. eauto 10. Qed.

Lemma identity_kept_insert w d x x' :
  store w !! d = Some x →
  Name x' = Name x → Location x' = Location x → pin x' = pin x → mu x' = mu x →
  identity_kept w (with_store (<[d := x']> (store w)) w).
Proof.
  intros Hx Hn Hl Hp Hm e v Hv. simpl. destruct (decide (d = e)) as [->|Hne].
  - exists x'. rewrite list_lookup_insert_eq by (by eapply lookup_lt_Some).
    by simplify_eq.
  - exists v. by rewrite list_lookup_insert_ne.
Qed.

Lemma pins_kept_insert w d x x' :
  store w !! d = Some x → pin x' = pin x →
  pins_kept w (with_store (<[d := x']> (store w)) w).
Proof.
  intros Hx Hp e v Hv. simpl. destruct (decide (d = e)) as [->|Hne].
  - exists x'. rewrite list_lookup_insert_eq by (by eapply lookup_lt_Some).
    by simplify_eq.
  - exists v. by rewrite list_lookup_insert_ne.
Qed.

Lemma step_thread_pins t c w t' w' :
  step_thread t c w = Done (t', w') → pins_kept w w'.
Proof.
  destruct t as [interval ticker pc|f d v pc|pc]; simpl.
  - destruct pc, c; simpl; intros H; try discriminate H; outcome_cases;
      try (by apply pins_kept_store); by eapply pins_kept_insert.
  - destruct pc; simpl; intros H; try discriminate H; outcome_cases;
      eapply pins_kept_insert; eauto; by destruct f.
  - destruct pc; simpl; intros H; try discriminate H; outcome_cases;
      by apply pins_kept_store.
Qed.

Lemma perform_pins a w w' :
  perform a w = Done w' →
  pins_kept w w' ∧ dom (Sensors (dm w)) ⊆ dom (Sensors (dm w')).
Proof.
  destruct a; simpl; intros H.
  - injection H as <-. split; [|done].
    intros d v Hv. exists v. simpl. split; [|done]. by apply lookup_app_l_Some.
  - unfold AddSensor in H. outcome_cases. split; [by apply pins_kept_store|].
    simpl. rewrite dom_insert. apply union_subseteq_r.
  - injection H as <-. split; [by apply pins_kept_store|done].
  - unfold StopReadCycle, close in H. outcome_cases.
    split; [by apply pins_kept_store|done].
  - injection H as <-. split; [by apply pins_kept_store|done].
  - injection H as <-. split; [by apply pins_kept_store|done].
  - injection H as <-. split; [by apply pins_kept_store|done].
  - destruct (threads w !! i) as [t|] eqn:Ht; [|discriminate].
    destruct (step_thread t c w) as [[t' w1]| |] eqn:Hs; try discriminate.
    simpl in H. injection H as <-.
    pose proof (step_thread_pins _ _ _ _ _ Hs) as Hp.
    apply step_thread_frame in Hs as (Hd & _). simpl. rewrite Hd.
    split; [|done]. intros d v Hv. apply (Hp d v Hv).
  - destruct (threads w !! i); [|discriminate]. injection H as <-.
    split; [by apply pins_kept_store|done].
Qed.

(** X1. Whatever is called and however the goroutines are scheduled, a handle
    stays at its address with the pin it was made with, and a pin that is in
    the manager's map stays in it: the package has no way to change a pin or
    to remove a registration. *)
Theorem pin_and_registration_kept s w w' :
  run s w = Done w' →
  pins_kept w w' ∧ dom (Sensors (dm w)) ⊆ dom (Sensors (dm w')).
Proof.
  revert w. induction s as [|a s IH]; intros w H.
  - injection H as <-. split; [apply pins_kept_refl|done].
  - apply run_Done_cons in H as (w1 & H1 & H2).
    destruct (perform_pins _ _ _ H1) as [Hp1 Hd1].
    destruct (IH _ H2) as [Hp2 Hd2].
    split; [by eapply pins_kept_trans|]. by etrans.
Qed.

Lemma pin_and_registration_kept_witness :
  pins_kept (after test_setup) (after one_tick_two_passes) ∧
  dom (Sensors (dm (after test_setup)))
    ⊆ dom (Sensors (dm (after one_tick_two_passes))).
Proof.
  apply (pin_and_registration_kept
           ([Call_StartReadCycle five_seconds; Step 0 Auto; Tick 0; Step 0 TakeTick]
            ++ read_19 0 (ok_reading 21.5 40) ++ [Step 0 EndOfMap]
            ++ [Call_StopReadCycle] ++ [Step 0 Auto]
            ++ read_19 0 (ok_reading 22 41) ++ [Step 0 EndOfMap])).
  vm_compute. reflexivity.
Defined.

Lemma perform_well_keyed a w w' :
  well_keyed w → perform a w = Done w' → well_keyed w'.
Proof.
  intros Hwk H. pose proof (perform_pins _ _ _ H) as [Hp _].
  assert (dm w' = dm w → well_keyed w') as Hsame.
  { intros Hd p d Hl. rewrite Hd in Hl.
    destruct (Hwk _ _ Hl) as (v & Hv & <-). by apply Hp. }
  destruct a; simpl in H.
  - injection H as <-. by apply Hsame.
  - unfold AddSensor in H. outcome_cases. intros p d' Hl. simpl in *.
    apply lookup_insert_Some in Hl as [[<- <-]|[_ Hl]]; [eauto|by apply Hwk].
  - injection H as <-. intros p d Hl. by apply Hwk.
  - unfold StopReadCycle, close in H. outcome_cases. by apply Hsame.
  - injection H as <-. by apply Hsame.
  - injection H as <-. by apply Hsame.
  - injection H as <-. by apply Hsame.
  - destruct (threads w !! i) as [t|] eqn:Ht; [|discriminate].
    destruct (step_thread t c w) as [[t' w1]| |] eqn:Hs; try discriminate.
    simpl in H. injection H as <-.
    apply step_thread_frame in Hs as (Hd & _). by apply Hsame.
  - destruct (threads w !! i); [|discriminate]. injection H as <-. by apply Hsame.
Qed.

(** X2. In every state the program can reach, each entry of the manager's
    map sends a pin to an allocated (non-nil) handle whose own pin is that
    key: [AddSensor] keys by [dht.pin] and nothing changes a pin afterwards. *)
Theorem map_keyed_by_pin s w w' :
  well_keyed w → run s w = Done w' → well_keyed w'.
Proof.
  revert w. induction s as [|a s IH]; intros w Hwk H.
  - by injection H as <-.
  - apply run_Done_cons in H as (w1 & H1 & H2).
    eapply IH; [|exact H2]. by eapply perform_well_keyed.
Qed.

Lemma map_keyed_by_pin_witness : well_keyed (after string_during_read).
Proof.
  apply (map_keyed_by_pin string_during_read init).
  - intros p d Hl. simpl in Hl. by rewrite lookup_empty in Hl.
  - vm_compute. reflexivity.
Defined.

(** X3. Only [AddSensor], [StartReadCycle] and [StopReadCycle] write to the
    manager: however the read cycles, the callers of [SetName] and
    [SetLocation] and the callers of [String] are scheduled, and whatever
    handles are made, the map, the stop channel and the channels' state stay
    as they are. *)
Theorem goroutines_leave_manager_alone s w w' :
  Forall (λ a, is_manager_call a = false) s → run s w = Done w' →
  dm w' = dm w ∧ chans w' = chans w.
Proof.
  intros Hs. revert w. induction Hs as [|a s Ha _ IH]; intros w H.
  - by injection H as <-.
  - apply run_Done_cons in H as (w1 & H1 & H2).
    destruct (IH _ H2) as [-> ->]. clear IH H2.
    destruct a; simpl in *; try discriminate Ha.
    + by injection H1 as <-.
    + by injection H1 as <-.
    + by injection H1 as <-.
    + by injection H1 as <-.
    + destruct (threads w !! i) as [t|] eqn:Ht; [|discriminate].
      destruct (step_thread t c w) as [[t' w2]| |] eqn:Hst; try discriminate.
      simpl in H1. injection H1 as <-.
      by apply step_thread_frame in Hst as (Hd & Hc & _).
    + destruct (threads w !! i); [|discriminate]. by injection H1 as <-.
Qed.

Lemma goroutines_leave_manager_alone_witness :
  dm (after string_during_read) = dm (after (test_setup ++ [Call_StartReadCycle five_seconds])) ∧
  chans (after string_during_read) = chans (after (test_setup ++ [Call_StartReadCycle five_seconds])).
Proof.
  apply (goroutines_leave_manager_alone
           ([Step 0 Auto; Tick 0; Step 0 TakeTick] ++
            [Go_String; Step 1 Auto; Step 1 Auto; Step 1 Auto; Step 1 Auto] ++
            read_19 0 (ok_reading 21.5 40) ++ [Step 1 Auto])).
  - repeat constructor.
  - vm_compute. reflexivity.
Defined.

(** ** Starting and stopping *)

(** An open channel stays open as long as [StopReadCycle] is not called. *)
Lemma perform_open a w w' c :
  is_stop a = false → perform a w = Done w' →
  chans w !! c = Some false → chans w' !! c = Some false.
Proof.
  destruct a; simpl; try discriminate; intros _ H Hc.
  - by injection H as <-.
  - unfold AddSensor in H. outcome_cases. done.
  - injection H as <-. simpl. by apply lookup_app_l_Some.
  - by injection H as <-.
  - by injection H as <-.
  - by injection H as <-.
  - destruct (threads w !! i) as [t|] eqn:Ht; [|discriminate].
    destruct (step_thread t c0 w) as [[t' w1]| |] eqn:Hs; try discriminate.
    simpl in H. injection H as <-. apply step_thread_frame in Hs as (_ & Hd & _).
    simpl. by rewrite Hd.
  - destruct (threads w !! i); [|discriminate]. by injection H as <-.
Qed.

Lemma run_stays_open s w w' c :
  Forall (λ a, is_start a = false ∧ is_stop a = false) s →
  run s w = Done w' →
  stopReading (dm w) = Some c → chans w !! c = Some false →
  stopReading (dm w') = Some c ∧ chans w' !! c = Some false.
Proof.
  intros Hs. revert w. induction Hs as [|a s [Ha1 Ha2] _ IH]; intros w Hrun Hst Hop.
  - by injection Hrun as <-.
  - apply run_Done_cons in Hrun as (wm & H1 & H2).
    apply (IH _ H2).
    + by rewrite (perform_stopReading _ _ _ Ha1 H1).
    + by apply (perform_open _ _ _ _ Ha2 H1).
Qed.

(** X4. After [StartReadCycle], and as long as neither [StartReadCycle] nor
    [StopReadCycle] is called again, a call of [StopReadCycle] returns
    normally, whatever the goroutines have done meanwhile; it leaves the
    manager's stop channel closed and touches no handle and no goroutine. *)
Theorem StopReadCycle_after_start_returns interval w w1 s w2 :
  StartReadCycle interval w = Done w1 →
  Forall (λ a, is_start a = false ∧ is_stop a = false) s →
  run s w1 = Done w2 →
  ∃ w3, StopReadCycle w2 = Done w3 ∧ closed w3 (stopReading (dm w3)) = true ∧
        store w3 = store w2 ∧ threads w3 = threads w2.
Proof.
  intros Hstart Hs Hrun. injection Hstart as <-.
  destruct (run_stays_open _ _ _ (length (chans w)) Hs Hrun) as [Hc Hopen].
  { reflexivity. }
  { simpl. by apply list_lookup_middle. }
  unfold StopReadCycle, close. rewrite Hc, Hopen.
  eexists. split; [reflexivity|]. simpl. unfold closed. simpl.
  rewrite Hc. simpl. rewrite list_lookup_insert_eq by (by eapply lookup_lt_Some).
  done.
Qed.

Lemma StopReadCycle_after_start_returns_witness :
  ∃ w3, StopReadCycle (after (started_and_ticked ++ read_19 0 (ok_reading 21.5 40)))
          = Done w3 ∧
        closed w3 (stopReading (dm w3)) = true.
Proof.
  destruct (StopReadCycle_after_start_returns five_seconds
              (after test_setup)
              (after (test_setup ++ [Call_StartReadCycle five_seconds]))
              ([Step 0 Auto; Tick 0; Step 0 TakeTick] ++ read_19 0 (ok_reading 21.5 40))
              (after (started_and_ticked ++ read_19 0 (ok_reading 21.5 40))))
    as (w3 & H3 & Hclosed & _).
  - reflexivity.
  - repeat constructor.
  - vm_compute. reflexivity.
  - exists w3. split; [exact H3|exact Hclosed].
Defined.

(** X5. With a non-positive interval [StartReadCycle] itself returns
    normally, but the goroutine it starts panics at [time.NewTicker] as soon
    as it runs, which ends the program. *)
Theorem nonpositive_interval_panics interval w :
  interval ≤ 0 →
  ∃ w1, StartReadCycle interval w = Done w1 ∧
        perform (Step (length (threads w)) Auto) w1
          = Panic "non-positive interval for NewTicker".
Proof.
  intros Hle. eexists. split; [reflexivity|]. simpl.
  rewrite list_lookup_middle by done. simpl.
  by rewrite decide_True.
Qed.

Lemma nonpositive_interval_panics_witness :
  run [Call_StartReadCycle 0; Step 0 Auto] init
    = Panic "non-positive interval for NewTicker".
Proof.
  destruct (nonpositive_interval_panics 0 init) as (w1 & H1 & H2); [lia|].
  simpl. injection H1 as <-. exact H2.
Defined.

(** ** The read cycle *)

Lemma step_cycle_in_loop interval ticker pc c w t' w' :
  in_loop pc = true →
  step_cycle interval ticker pc c w = Done (t', w') →
  ∃ ticker' pc', t' = Cycle interval ticker' pc' ∧ in_loop pc' = true.
Proof.
  intros Hin H.
  destruct pc, c; simpl in *; try discriminate; outcome_cases; eauto.
Qed.

Lemma perform_in_loop a w w' i interval ticker pc :
  threads w !! i = Some (Cycle interval ticker pc) → in_loop pc = true →
  perform a w = Done w' →
  ∃ ticker' pc',
    threads w' !! i = Some (Cycle interval ticker' pc') ∧ in_loop pc' = true.
Proof.
  intros Hi Hin H. destruct a; simpl in H.
  - injection H as <-. eauto.
  - unfold AddSensor in H. outcome_cases. eauto.
  - injection H as <-. simpl. exists ticker, pc. split; [|done].
    by apply lookup_app_l_Some.
  - unfold StopReadCycle, close in H. outcome_cases. eauto.
  - injection H as <-. simpl. exists ticker, pc. split; [|done].
    by apply lookup_app_l_Some.
  - injection H as <-. simpl. exists ticker, pc. split; [|done].
    by apply lookup_app_l_Some.
  - injection H as <-. simpl. exists ticker, pc. split; [|done].
    by apply lookup_app_l_Some.
  - destruct (threads w !! i0) as [t|] eqn:Ht; [|discriminate].
    destruct (step_thread t c w) as [[t' w1]| |] eqn:Hs; try discriminate.
    simpl in H. injection H as <-. simpl.
    pose proof (step_thread_frame _ _ _ _ _ Hs) as (_ & _ & Hth). rewrite Hth.
    destruct (decide (i0 = i)) as [->|Hne].
    + rewrite list_lookup_insert_eq by (by eapply lookup_lt_Some).
      rewrite Hi in Ht. injection Ht as <-. simpl in Hs.
      destruct (step_cycle_in_loop _ _ _ _ _ _ _ Hin Hs) as (tk & pc' & -> & Hin').
      eauto.
    + rewrite list_lookup_insert_ne by done. eauto.
  - destruct (threads w !! i0) as [t|] eqn:Ht; [|discriminate].
    injection H as <-. simpl.
    destruct (decide (i0 = i)) as [->|Hne].
    + rewrite list_lookup_insert_eq by (by eapply lookup_lt_Some).
      rewrite Hi in Ht. injection Ht as <-. destruct ticker; simpl; eauto.
    + rewrite list_lookup_insert_ne by done. eauto.
Qed.

(** X6. A read cycle that has taken its first tick never returns and never
    goes back to its select: whatever is called afterwards, [StopReadCycle]
    included, and however long the program runs, that goroutine is still
    inside the loop of passes and sleeps. *)
Theorem read_cycle_never_leaves_loop s w w' i interval ticker pc :
  threads w !! i = Some (Cycle interval ticker pc) → in_loop pc = true →
  run s w = Done w' →
  ∃ ticker' pc',
    threads w' !! i = Some (Cycle interval ticker' pc') ∧ in_loop pc' = true.
Proof.
  revert w ticker pc. induction s as [|a s IH]; intros w ticker pc Hi Hin H.
  - injection H as <-. eauto.
  - apply run_Done_cons in H as (w1 & H1 & H2).
    destruct (perform_in_loop _ _ _ _ _ _ _ Hi Hin H1) as (tk & pc1 & Hi1 & Hin1).
    by eapply IH.
Qed.

Lemma read_cycle_never_leaves_loop_witness :
  ∃ ticker' pc',
    threads (after one_tick_two_passes) !! 0%nat
      = Some (Cycle five_seconds ticker' pc') ∧ in_loop pc' = true.
Proof.
  apply (read_cycle_never_leaves_loop
           (read_19 0 (ok_reading 21.5 40) ++ [Step 0 EndOfMap] ++
            [Call_StopReadCycle] ++
            [Step 0 Auto] ++ read_19 0 (ok_reading 22 41) ++ [Step 0 EndOfMap])
           (after started_and_ticked) _ 0%nat five_seconds (Some false)
           (begin_pass (after started_and_ticked))).
  - reflexivity.
  - reflexivity.
  - vm_compute. reflexivity.
Defined.

Lemma step_waiting t c w t' w' :
  waiting t = true → step_thread t c w = Done (t', w') →
  waiting t' = true ∧ readings_frozen w w' ∧ driver_calls w' = driver_calls w.
Proof.
  intros Hw H. destruct t as [interval ticker pc|f d v pc|pc].
  - simpl in H.
    destruct pc, c; simpl in *; try discriminate; outcome_cases;
      (split; [done|]; split; [by apply readings_frozen_store|done]).
  - assert (∀ interval ticker pc', Setter f d v pc ≠ Cycle interval ticker pc')
      as Hcaller by done.
    destruct (step_caller_frozen _ _ _ _ _ Hcaller H) as (Hnc & Hfr & Hdc).
    split; [|done]. destruct t' as [interval ticker pc'| |]; [|done..].
    by destruct (Hnc interval ticker pc').
  - assert (∀ interval ticker pc', Stringer pc ≠ Cycle interval ticker pc')
      as Hcaller by done.
    destruct (step_caller_frozen _ _ _ _ _ Hcaller H) as (Hnc & Hfr & Hdc).
    split; [|done]. destruct t' as [interval ticker pc'| |]; [|done..].
    by destruct (Hnc interval ticker pc').
Qed.

Lemma perform_waiting a w w' :
  Forall (λ t, waiting t = true) (threads w) → is_tick a = false →
  perform a w = Done w' →
  Forall (λ t, waiting t = true) (threads w') ∧ readings_frozen w w' ∧
  driver_calls w' = driver_calls w.
Proof.
  intros Hall Ha H. destruct a; simpl in *; try discriminate Ha.
  - injection H as <-. split; [done|]. split; [|done].
    intros d v Hv. exists v. simpl. split; [|done]. by apply lookup_app_l_Some.
  - unfold AddSensor in H. outcome_cases.
    split; [done|]. split; [by apply readings_frozen_store|done].
  - injection H as <-. simpl. split; [|split; [by apply readings_frozen_store|done]].
    apply Forall_app. split; [done|]. by repeat constructor.
  - unfold StopReadCycle, close in H. outcome_cases.
    split; [done|]. split; [by apply readings_frozen_store|done].
  - injection H as <-. simpl. split; [|split; [by apply readings_frozen_store|done]].
    apply Forall_app. split; [done|]. by repeat constructor.
  - injection H as <-. simpl. split; [|split; [by apply readings_frozen_store|done]].
    apply Forall_app. split; [done|]. by repeat constructor.
  - injection H as <-. simpl. split; [|split; [by apply readings_frozen_store|done]].
    apply Forall_app. split; [done|]. by repeat constructor.
  - destruct (threads w !! i) as [t|] eqn:Ht; [|discriminate].
    destruct (step_thread t c w) as [[t' w1]| |] eqn:Hs; try discriminate.
    simpl in H. injection H as <-. simpl.
    pose proof (Forall_lookup_1 _ _ _ _ Hall Ht) as Hw.
    destruct (step_waiting _ _ _ _ _ Hw Hs) as (Hw' & Hfr & Hdc).
    apply step_thread_frame in Hs as (_ & _ & Hth). rewrite Hth.
    split; [|done]. by apply Forall_insert.
Qed.

(** X7. No sensor is read before a ticker has fired: from a state in which no
    read cycle is past its select or has a tick waiting, and as long as no
    tick is delivered, the driver is never called and every temperature and
    humidity stays as it is, whatever is called ([StartReadCycle] included)
    and however the goroutines run. *)
Theorem no_read_before_first_tick s w w' :
  Forall (λ t, waiting t = true) (threads w) →
  Forall (λ a, is_tick a = false) s →
  run s w = Done w' →
  Forall (λ t, waiting t = true) (threads w') ∧ readings_frozen w w' ∧
  driver_calls w' = driver_calls w.
Proof.
  intros Hall Hs. revert w Hall. induction Hs as [|a s Ha _ IH]; intros w Hall H.
  - injection H as <-. split; [done|]. split; [apply readings_frozen_refl|done].
  - apply run_Done_cons in H as (w1 & H1 & H2).
    destruct (perform_waiting _ _ _ Hall Ha H1) as (Hall1 & Hfr1 & Hdc1).
    destruct (IH _ Hall1 H2) as (Hall2 & Hfr2 & Hdc2).
    split; [done|]. split; [by eapply readings_frozen_trans|congruence].
Qed.

Lemma no_read_before_first_tick_witness :
  driver_calls
    (after (test_setup ++ [Call_StartReadCycle five_seconds; Step 0 Auto;
                           Go_String; Step 1 Auto; Call_StopReadCycle;
                           Step 0 TakeStop])) = [].
Proof.
  destruct (no_read_before_first_tick
              (test_setup ++ [Call_StartReadCycle five_seconds; Step 0 Auto;
                              Go_String; Step 1 Auto; Call_StopReadCycle;
                              Step 0 TakeStop])
              init
              (after (test_setup ++ [Call_StartReadCycle five_seconds; Step 0 Auto;
                                     Go_String; Step 1 Auto; Call_StopReadCycle;
                                     Step 0 TakeStop])))
    as (_ & _ & Hcalls).
  - constructor.
  - repeat constructor.
  - vm_compute. reflexivity.
  - exact Hcalls.
Defined.

(** ** Names, locations and the lock *)

Lemma identity_kept_refl w : identity_kept w w.
Proof. intros d v Hv. eauto 10. Qed.

Lemma identity_kept_trans w1 w2 w3 :
  identity_kept w1 w2 → identity_kept w2 w3 → identity_kept w1 w3.
Proof.
  intros H12 H23 d v Hv.
  destruct (H12 _ _ Hv) as (v2 & Hv2 & <- & <- & <- & <-). by apply H23.
Qed.

(** A step of a read cycle or of [String] leaves the identity of every
    handle alone and does not turn the goroutine into a setter. *)
Lemma step_not_setter t c w t' w' :
  is_setter t = false → step_thread t c w = Done (t', w') →
  is_setter t' = false ∧ (∀ d, holds_lock d t' = false) ∧ identity_kept w w'.
Proof.
  intros Hns H. destruct t as [interval ticker pc|f d v pc|pc]; [| done |].
  - simpl in H.
    destruct pc, c; simpl in *; try discriminate; outcome_cases;
      (split; [done|]; split; [done|]);
      try (by apply identity_kept_store); by eapply identity_kept_insert.
  - simpl in H.
    destruct pc; simpl in *; try discriminate; outcome_cases;
      (split; [|split; [|by apply identity_kept_store]]);
      unfold next_entry; intros; repeat case_match; done.
Qed.

Lemma perform_no_setter a w w' :
  Forall (λ t, is_setter t = false) (threads w) → is_go_setter a = false →
  perform a w = Done w' →
  Forall (λ t, is_setter t = false) (threads w') ∧ identity_kept w w'.
Proof.
  intros Hall Ha H. destruct a; simpl in *; try discriminate Ha.
  - injection H as <-. split; [done|].
    intros d v Hv. exists v. simpl. split; [|done]. by apply lookup_app_l_Some.
  - unfold AddSensor in H. outcome_cases.
    split; [done|by apply identity_kept_store].
  - injection H as <-. simpl. split; [|by apply identity_kept_store].
    apply Forall_app. split; [done|]. by repeat constructor.
  - unfold StopReadCycle, close in H. outcome_cases.
    split; [done|by apply identity_kept_store].
  - injection H as <-. simpl. split; [|by apply identity_kept_store].
    apply Forall_app. split; [done|]. by repeat constructor.
  - destruct (threads w !! i) as [t|] eqn:Ht; [|discriminate].
    destruct (step_thread t c w) as [[t' w1]| |] eqn:Hs; try discriminate.
    simpl in H. injection H as <-. simpl.
    pose proof (Forall_lookup_1 _ _ _ _ Hall Ht) as Hns.
    destruct (step_not_setter _ _ _ _ _ Hns Hs) as (Hns' & _ & Hid).
    apply step_thread_frame in Hs as (_ & _ & Hth). rewrite Hth.
    split; [by apply Forall_insert|done].
  - destruct (threads w !! i) as [t|] eqn:Ht; [|discriminate].
    injection H as <-. simpl. split; [|by apply identity_kept_store].
    apply Forall_insert; [done|].
    pose proof (Forall_lookup_1 _ _ _ _ Hall Ht) as Hns.
    by destruct t as [? [] ?| |].
Qed.

(** X8. Only [SetName] and [SetLocation] change a handle's name or location:
    when no call of them is under way or started, every handle keeps its
    name, location, pin and lock state, whatever the read cycles read and
    whatever else is called. *)
Theorem only_setters_rename s w w' :
  Forall (λ t, is_setter t = false) (threads w) →
  Forall (λ a, is_go_setter a = false) s →
  run s w = Done w' →
  Forall (λ t, is_setter t = false) (threads w') ∧ identity_kept w w'.
Proof.
  intros Hall Hs. revert w Hall. induction Hs as [|a s Ha _ IH]; intros w Hall H.
  - injection H as <-. split; [done|apply identity_kept_refl].
  - apply run_Done_cons in H as (w1 & H1 & H2).
    destruct (perform_no_setter _ _ _ Hall Ha H1) as (Hall1 & Hid1).
    destruct (IH _ Hall1 H2) as (Hall2 & Hid2).
    split; [done|by eapply identity_kept_trans].
Qed.

Lemma only_setters_rename_witness :
  identity_kept (after test_setup) (after one_tick_two_passes).
Proof.
  apply (only_setters_rename
           ([Call_StartReadCycle five_seconds; Step 0 Auto; Tick 0; Step 0 TakeTick]
            ++ read_19 0 (ok_reading 21.5 40) ++ [Step 0 EndOfMap]
            ++ [Call_StopReadCycle] ++ [Step 0 Auto]
            ++ read_19 0 (ok_reading 22 41) ++ [Step 0 EndOfMap])
           (after test_setup)).
  - constructor.
  - repeat constructor.
  - vm_compute. reflexivity.
Defined.

(** A goroutine that holds no lock takes a step that leaves the locks alone. *)
Lemma lock_respected_other w w1 i t t' :
  lock_respected w → threads w !! i = Some t →
  (∀ d, holds_lock d t' = false) → identity_kept w w1 → threads w1 = threads w →
  lock_respected (with_threads (<[i := t']> (threads w1)) w1).
Proof.
  intros [HA HB] Hi Hnone Hid Hth. split; simpl; rewrite Hth.
  - intros k tk d Hk Hh.
    apply list_lookup_insert_Some in Hk as [(_ & <- & _)|[Hne Hk]].
    { by rewrite Hnone in Hh. }
    destruct (HA _ _ _ Hk Hh) as (v & Hv & Hmu).
    destruct (Hid _ _ Hv) as (v' & Hv' & _ & _ & _ & Hmu'). exists v'.
    split; [done|congruence].
  - intros k1 k2 t1 t2 d Hk1 Hk2 Hh1 Hh2.
    apply list_lookup_insert_Some in Hk1 as [(_ & <- & _)|[Hne1 Hk1]].
    { by rewrite Hnone in Hh1. }
    apply list_lookup_insert_Some in Hk2 as [(_ & <- & _)|[Hne2 Hk2]].
    { by rewrite Hnone in Hh2. }
    by eapply HB.
Qed.

(** Adding a goroutine that holds no lock. *)
Lemma lock_respected_add w w' t :
  lock_respected w → (∀ d, holds_lock d t = false) →
  store w' = store w → threads w' = threads w ++ [t] → lock_respected w'.
Proof.
  intros [HA HB] Hnone Hst Hth. split; rewrite ?Hst, Hth.
  - intros k tk d Hk Hh.
    apply lookup_app_Some in Hk as [Hk|[_ Hk]]; [by eapply HA|].
    apply list_lookup_singleton_Some in Hk as [_ <-]. by rewrite Hnone in Hh.
  - intros k1 k2 t1 t2 d Hk1 Hk2 Hh1 Hh2.
    apply lookup_app_Some in Hk1 as [Hk1|[_ Hk1]].
    2:{ apply list_lookup_singleton_Some in Hk1 as [_ <-]. by rewrite Hnone in Hh1. }
    apply lookup_app_Some in Hk2 as [Hk2|[_ Hk2]].
    2:{ apply list_lookup_singleton_Some in Hk2 as [_ <-]. by rewrite Hnone in Hh2. }
    by eapply HB.
Qed.

Lemma lock_respected_setter w i f d v pc t' w1 :
  lock_respected w → threads w !! i = Some (Setter f d v pc) →
  step_setter f d v pc w = Done (t', w1) →
  lock_respected (with_threads (<[i := t']> (threads w1)) w1).
Proof.
  intros [HA HB] Hi Hs.
  destruct pc; simpl in Hs; try discriminate; outcome_cases.
  - (* Lock *)
    rename d0 into x. split; simpl.
    + intros k tk e Hk Hh.
      apply list_lookup_insert_Some in Hk as [(_ & <- & _)|[Hne Hk]].
      * simpl in Hh. apply bool_decide_eq_true in Hh as <-.
        exists (set_mu true x).
        by rewrite list_lookup_insert_eq by (by eapply lookup_lt_Some).
      * destruct (HA _ _ _ Hk Hh) as (y & Hy & Hmu). exists y. split; [|done].
        rewrite list_lookup_insert_ne; [done|]. intros ->. congruence.
    + intros k1 k2 t1 t2 e Hk1 Hk2 Hh1 Hh2.
      apply list_lookup_insert_Some in Hk1 as [(<- & <- & _)|[Hne1 Hk1]];
        apply list_lookup_insert_Some in Hk2 as [(<- & <- & _)|[Hne2 Hk2]];
        try done.
      * simpl in Hh1. apply bool_decide_eq_true in Hh1 as <-.
        destruct (HA _ _ _ Hk2 Hh2) as (y & Hy & Hmu). congruence.
      * simpl in Hh2. apply bool_decide_eq_true in Hh2 as <-.
        destruct (HA _ _ _ Hk1 Hh1) as (y & Hy & Hmu). congruence.
      * by eapply HB.
  - (* the assignment *)
    rename d0 into x.
    assert (mu (assign f v x) = mu x) as Hmux by (by destruct f).
    split; simpl.
    + intros k tk e Hk Hh.
      assert (∃ tk0, threads w !! k = Some tk0 ∧ holds_lock e tk0 = true)
        as (tk0 & Hk0 & Hh0).
      { apply list_lookup_insert_Some in Hk as [(<- & <- & _)|[Hne Hk]]; eauto. }
      destruct (HA _ _ _ Hk0 Hh0) as (y & Hy & Hmu).
      destruct (decide (d = e)) as [<-|Hne].
      * exists (assign f v x).
        rewrite list_lookup_insert_eq by (by eapply lookup_lt_Some).
        split; [done|]. congruence.
      * exists y. by rewrite list_lookup_insert_ne.
    + intros k1 k2 t1 t2 e Hk1 Hk2 Hh1 Hh2.
      assert (∃ t0, threads w !! k1 = Some t0 ∧ holds_lock e t0 = true)
        as (t10 & Hk10 & Hh10).
      { apply list_lookup_insert_Some in Hk1 as [(<- & <- & _)|[Hne Hk1]]; eauto. }
      assert (∃ t0, threads w !! k2 = Some t0 ∧ holds_lock e t0 = true)
        as (t20 & Hk20 & Hh20).
      { apply list_lookup_insert_Some in Hk2 as [(<- & <- & _)|[Hne Hk2]]; eauto. }
      by eapply HB.
  - (* Unlock *)
    rename d0 into x.
    assert (holds_lock d (Setter f d v AtUnlock) = true) as Hmine.
    { simpl. by apply bool_decide_eq_true. }
    split; simpl.
    + intros k tk e Hk Hh.
      apply list_lookup_insert_Some in Hk as [(_ & <- & _)|[Hne Hk]]; [done|].
      destruct (HA _ _ _ Hk Hh) as (y & Hy & Hmu). exists y. split; [|done].
      rewrite list_lookup_insert_ne; [done|]. intros ->.
      by destruct Hne; eapply HB.
    + intros k1 k2 t1 t2 e Hk1 Hk2 Hh1 Hh2.
      apply list_lookup_insert_Some in Hk1 as [(_ & <- & _)|[Hne1 Hk1]]; [done|].
      apply list_lookup_insert_Some in Hk2 as [(_ & <- & _)|[Hne2 Hk2]]; [done|].
      by eapply HB.
Qed.

Lemma perform_lock_respected a w w' :
  lock_respected w → perform a w = Done w' → lock_respected w'.
Proof.
  intros Hinv H. destruct a; simpl in H.
  - injection H as <-. destruct Hinv as [HA HB]. split; simpl; [|done].
    intros k tk d Hk Hh. destruct (HA _ _ _ Hk Hh) as (v & Hv & Hmu).
    exists v. split; [|done]. by apply lookup_app_l_Some.
  - unfold AddSensor in H. outcome_cases. done.
  - injection H as <-.
    eapply lock_respected_add; [exact Hinv| |reflexivity|reflexivity]; done.
  - unfold StopReadCycle, close in H. outcome_cases. done.
  - injection H as <-.
    eapply lock_respected_add; [exact Hinv| |reflexivity|reflexivity]; done.
  - injection H as <-.
    eapply lock_respected_add; [exact Hinv| |reflexivity|reflexivity]; done.
  - injection H as <-.
    eapply lock_respected_add; [exact Hinv| |reflexivity|reflexivity]; done.
  - destruct (threads w !! i) as [t|] eqn:Ht; [|discriminate].
    destruct (step_thread t c w) as [[t' w1]| |] eqn:Hs; try discriminate.
    simpl in H. injection H as <-.
    destruct (is_setter t) eqn:Hset.
    + destruct t as [| f d v pc |]; try discriminate Hset.
      by eapply lock_respected_setter.
    + destruct (step_not_setter _ _ _ _ _ Hset Hs) as (_ & Hnone & Hid).
      apply step_thread_frame in Hs as (_ & _ & Hth).
      by eapply lock_respected_other.
  - destruct (threads w !! i) as [t|] eqn:Ht; [|discriminate].
    injection H as <-.
    destruct (is_setter t) eqn:Hset.
    + destruct t as [| f d v pc |]; try discriminate Hset. simpl.
      rewrite list_insert_id by done. by destruct w.
    + eapply (lock_respected_other w w); eauto using identity_kept_refl.
      intros d. by destruct t as [? [] []| |].
Qed.

(** X9. [SetName] and [SetLocation] exclude each other on a handle: in every
    state the program can reach, no two goroutines are between Lock and
    Unlock of the same handle, and a goroutine that is there finds the
    handle's lock held. *)
Theorem setters_exclude_each_other s w w' :
  lock_respected w → run s w = Done w' → lock_respected w'.
Proof.
  revert w. induction s as [|a s IH]; intros w Hinv H.
  - by injection H as <-.
  - apply run_Done_cons in H as (w1 & H1 & H2).
    eapply IH; [|exact H2]. by eapply perform_lock_respected.
Qed.

Lemma setters_exclude_each_other_witness :
  lock_respected
    (after (test_setup ++ [Go_SetName 0%nat "roof"; Go_SetLocation 0%nat "attic";
                           Step 0 Auto; Step 0 Auto])).
Proof.
  apply (setters_exclude_each_other
           (test_setup ++ [Go_SetName 0%nat "roof"; Go_SetLocation 0%nat "attic";
                           Step 0 Auto; Step 0 Auto]) init).
  - split; intros i; intros; by destruct i.
  - vm_compute. reflexivity.
Defined.

(** While one setter is between Lock and Unlock, the other cannot pass Lock. *)
Lemma second_setter_blocks :
  perform (Step 1 Auto)
    (after (test_setup ++ [Go_SetName 0%nat "roof"; Go_SetLocation 0%nat "attic";
                           Step 0 Auto; Step 0 Auto])) = Blocked.
Proof. reflexivity. Qed.

(** ** One pass of the read cycle *)

Lemma well_keyed_kept w w' :
  dm w' = dm w → pins_kept w w' → well_keyed w → well_keyed w'.
Proof.
  intros Hd Hp Hwk p d Hl. rewrite Hd in Hl.
  destruct (Hwk _ _ Hl) as (v & Hv & <-). by apply Hp.
Qed.

Lemma pass_steps cs : ∀ interval ticker pc w l t' w',
  well_keyed w → NoDup l → (∀ k, k ∈ l → k ∈ dom (Sensors (dm w))) →
  pass_at (Sensors (dm w)) l pc →
  EndOfMap ∉ cs →
  run_thread (cs ++ [EndOfMap]) (Cycle interval ticker pc) w = Done (t', w') →
  t' = Cycle interval ticker AtSleep ∧
  ∃ l', driver_calls w' = driver_calls w ++ l' ∧
        l ++ l' ≡ₚ elements (dom (Sensors (dm w))).
Proof.
  induction cs as [|c cs IH]; intros interval ticker pc w l t' w' Hwk Hnd Hin Hat Hno H.
  - simpl in H. destruct pc; simpl in *; try discriminate H; try done.
    destruct Hat as [-> ->]. case_decide as Hsub; [|discriminate H].
    simpl in H. injection H as <- <-. split; [done|]. exists [].
    split; [by rewrite app_nil_r|]. rewrite app_nil_r.
    apply NoDup_Permutation; [done|apply NoDup_elements|].
    intros k. rewrite elem_of_elements. split; [apply Hin|].
    intros Hk. apply (elem_of_list_to_set (C := gset Z)). apply Hsub.
    by apply elem_of_intersection.
  - apply not_elem_of_cons in Hno as [Hc Hno].
    change (run_thread ((c :: cs) ++ [EndOfMap]) (Cycle interval ticker pc) w)
      with (step_cycle interval ticker pc c w
              ≫= λ '(t1, w1), run_thread (cs ++ [EndOfMap]) t1 w1) in H.
    destruct (step_cycle interval ticker pc c w) as [[t1 w1]| |] eqn:Hs;
      try discriminate H.
    simpl in H.
    destruct pc; simpl in Hat; try done.
    + (* between two reads *)
      destruct Hat as [-> ->].
      destruct c; simpl in Hs; try discriminate Hs; try done.
      destruct (Sensors (dm w) !! k) as [d|] eqn:Hk; [|discriminate Hs].
      case_decide as Hvis; [discriminate Hs|]. injection Hs as <- <-.
      eapply IH; eauto. simpl. split; [done|]. exists k.
      split; [done|]. split; [|done]. by rewrite elem_of_list_to_set in Hvis.
    + (* the driver call *)
      destruct Hat as (-> & k & Hk & Hkl & ->).
      destruct (Hwk _ _ Hk) as (v & Hv & Hpin).
      destruct c; simpl in Hs; try discriminate Hs.
      unfold deref in Hs. rewrite Hv in Hs. simpl in Hs. rewrite Hpin in Hs.
      assert (NoDup (l ++ [k])) as Hnd'.
      { apply NoDup_app. split; [done|]. split; [|apply NoDup_singleton].
        intros x Hx ->%list_elem_of_singleton. done. }
      assert (∀ x, x ∈ l ++ [k] → x ∈ dom (Sensors (dm w))) as Hin'.
      { intros x [Hx| ->%list_elem_of_singleton]%elem_of_app; [by apply Hin|].
        apply elem_of_dom. eauto. }
      assert ({[k]} ∪ list_to_set l = list_to_set (C := gset Z) (l ++ [k])) as Hset.
      { rewrite list_to_set_snoc_L. apply union_comm_L. }
      destruct (err r) eqn:He; injection Hs as <- <-;
        (eapply (IH _ _ _ _ (l ++ [k])) in H as (-> & l' & Hl' & Hperm);
           [|done|done|done|by split|done]);
        (split; [done|]); exists (k :: l'); simpl in *;
        rewrite Hl', <- app_assoc; (split; [done|]);
        by rewrite <- app_assoc in Hperm.
    + (* storing the temperature *)
      destruct Hat as [-> ->].
      destruct c; simpl in Hs; try discriminate Hs.
      unfold deref in Hs. destruct (store w !! d) as [v|] eqn:Hv; [|discriminate Hs].
      simpl in Hs. injection Hs as <- <-.
      eapply (IH _ _ _ _ l) in H as (-> & l' & Hl' & Hperm);
        [|eapply well_keyed_kept; [| |exact Hwk]; [done|];
          by eapply pins_kept_insert
         |done|done|by split|done].
      split; [done|]. by exists l'.
    + (* storing the humidity *)
      destruct Hat as [-> ->].
      destruct c; simpl in Hs; try discriminate Hs.
      unfold deref in Hs. destruct (store w !! d) as [v|] eqn:Hv; [|discriminate Hs].
      simpl in Hs. injection Hs as <- <-.
      eapply (IH _ _ _ _ l) in H as (-> & l' & Hl' & Hperm);
        [|eapply well_keyed_kept; [| |exact Hwk]; [done|];
          by eapply pins_kept_insert
         |done|done|by split|done].
      split; [done|]. by exists l'.
Qed.

(** X10. A pass that runs without interference calls the driver exactly once
    for every pin registered when the pass begins, in some order, and then
    goes to sleep: the pins the driver is called with during the pass are a
    permutation of the keys of the map. *)
Theorem pass_reads_every_sensor_once cs interval ticker w t' w' :
  well_keyed w → EndOfMap ∉ cs →
  run_thread (cs ++ [EndOfMap]) (Cycle interval ticker (begin_pass w)) w
    = Done (t', w') →
  t' = Cycle interval ticker AtSleep ∧
  ∃ l, driver_calls w' = driver_calls w ++ l ∧
       l ≡ₚ elements (dom (Sensors (dm w))).
Proof.
  intros Hwk Hno H.
  apply (pass_steps cs _ _ _ _ []) in H; [done|done| | |done|done].
  - apply NoDup_nil_2.
  - intros k Hk. by apply elem_of_nil in Hk.
Qed.

Lemma well_keyed_one_sensor w v :
  Sensors (dm w) = {[19 := 0%nat]} → store w !! 0%nat = Some v → pin v = 19 →
  well_keyed w.
Proof.
  intros Hm Hv Hp p d Hl. rewrite Hm in Hl.
  apply lookup_singleton_Some in Hl as [<- <-]. eauto.
Qed.

Lemma pass_reads_every_sensor_once_witness :
  ∃ l, driver_calls
         (after (started_and_ticked ++ read_19 0 (ok_reading 21.5 40)
                 ++ [Step 0 EndOfMap]))
       = driver_calls (after started_and_ticked) ++ l ∧
       l ≡ₚ elements (dom (Sensors (dm (after started_and_ticked)))).
Proof.
  destruct (pass_reads_every_sensor_once
              [NextKey 19; Returns (ok_reading 21.5 40); Auto; Auto]
              five_seconds (Some false) (after started_and_ticked)
              (Cycle five_seconds (Some false) AtSleep)
              (with_threads (threads (after started_and_ticked))
                 (after (started_and_ticked ++ read_19 0 (ok_reading 21.5 40)
                         ++ [Step 0 EndOfMap]))))
    as (_ & l & Hl & Hperm).
  - by apply (well_keyed_one_sensor _ top_of_tent).
  - intros Hin. repeat (apply elem_of_cons in Hin as [Hin|Hin]; [discriminate Hin|]).
    by apply elem_of_nil in Hin.
  - vm_compute. reflexivity.
  - exists l. split; [exact Hl|exact Hperm].
Defined.

(** ** The document of [String], continued *)

Lemma sorted_entries_elem m p d :
  m !! p = Some d → (itoa p, d) ∈ sorted_entries m.
Proof.
  intros Hl. rewrite sorted_entries_perm.
  apply list_elem_of_fmap. exists (p, d). split; [done|].
  by apply elem_of_map_to_list.
Qed.

(** X11. The manager holds the caller's handle, not a copy: after a
    [SetName] or [SetLocation] on a registered handle whose lock is free has
    run to its end, the lock is free again, the handle has the new name or
    location and is otherwise unchanged, and any document [String] yields
    shows the handle so renamed under its pin. *)
Theorem rename_shows_in_String f d v w p x :
  Sensors (dm w) !! p = Some d → store w !! d = Some x → mu x = false →
  ∃ w', run_thread [Auto; Auto; Auto] (Setter f d v AtLock) w
          = Done (Setter f d v SetterReturned, w') ∧
        store w' !! d = Some (assign f v x) ∧ mu (assign f v x) = false ∧
        dm w' = dm w ∧
        ∀ doc, String w' = Bytes doc →
          ∃ ms, doc = JObject [("dht22", JObject ms)] ∧
                (itoa p, entry_of (assign f v x)) ∈ ms.
Proof.
  intros Hp Hx Hmu. eexists. split; [by apply setter_steps|]. simpl.
  assert (<[d:=assign f v x]> (store w) !! d = Some (assign f v x)) as Hd.
  { apply list_lookup_insert_eq. by eapply lookup_lt_Some. }
  split; [done|]. split; [by destruct f|]. split; [done|].
  intros doc ->%String_Bytes. eexists. split; [reflexivity|]. simpl.
  apply list_elem_of_fmap. exists (itoa p, d). split.
  - unfold member_of. simpl. by rewrite Hd.
  - by apply sorted_entries_elem.
Qed.

Lemma rename_shows_in_String_witness :
  ∃ w', run_thread [Auto; Auto; Auto] (Setter FName 0%nat "roof" AtLock)
          (after test_setup)
          = Done (Setter FName 0%nat "roof" SetterReturned, w') ∧
        String w' = Bytes (document_19 (set_Name "roof" top_of_tent)).
Proof.
  destruct (rename_shows_in_String FName 0%nat "roof" (after test_setup) 19
              top_of_tent)
    as (w' & Hrun & _).
  - reflexivity.
  - reflexivity.
  - reflexivity.
  - exists w'. split; [exact Hrun|].
    simpl in Hrun. injection Hrun as <-. reflexivity.
Defined.

(** X12. [String] returns the empty string exactly when some registered
    handle holds a temperature or humidity that is NaN or infinite: Marshal
    fails on it and its error is dropped. *)
Theorem String_Empty_iff w :
  String w = Empty ↔
  ∃ p d v, Sensors (dm w) !! p = Some d ∧ store w !! d = Some v ∧
           finite (Temp v) && finite (Humidity v) = false.
Proof.
  unfold String, Marshal, encode_Sensors.
  set (f := λ '(k, p), pair k <$> encode_ptr (store w) p).
  assert (∀ k d, f (k, d) = None ↔
            ∃ v, store w !! d = Some v ∧
                 finite (Temp v) && finite (Humidity v) = false) as Hf.
  { intros k d. unfold f, encode_ptr. destruct (store w !! d) as [v|]; simpl.
    - rewrite encode_DHT22_eq.
      destruct (finite (Temp v) && finite (Humidity v)) eqn:Hfin; simpl.
      + split; [done|]. intros (v' & [= <-] & Hv'). congruence.
      + split; [eauto|done].
    - split; [done|]. by intros (v' & [=] & _). }
  destruct (mapM f (sorted_entries (Sensors (dm w)))) as [ms|] eqn:Hm; simpl.
  - split; [done|]. intros (p & d & v & Hp & Hv & Hfin). exfalso.
    apply mapM_Some_1 in Hm.
    pose proof (sorted_entries_elem _ _ _ Hp) as Hin.
    apply list_elem_of_lookup in Hin as [i Hi].
    destruct (Forall2_lookup_l _ _ _ _ _ Hm Hi) as (y & _ & Hy).
    assert (f (itoa p, d) = None) as Hnone by (apply Hf; eauto).
    congruence.
  - split; [intros _|done].
    apply mapM_None_1, Exists_exists in Hm as ([k d] & Hin & Hnone).
    apply elem_of_sorted_entries in Hin as (p & -> & Hp).
    apply Hf in Hnone as (v & Hv & Hfin). eauto 10.
Qed.

(** The state after a read that stored a NaN temperature. *)
Lemma String_Empty_after_nan :
  String (after (started_and_ticked ++ read_19 0 (ok_reading nan 40))) = Empty.
Proof. reflexivity. Qed.

#[global] Instance itoa_inj : Inj (=) (=) itoa.
Proof.
  intros a b Hab. unfold itoa in Hab.
  assert (∀ z, NilZero.int_of_string (NilZero.string_of_int (Z.to_int z))
               = Some (Z.to_int z)) as Hround.
  { intros z. apply NilZero.isi; destruct z; simpl; try discriminate.
    - intros [= Hnil]. by apply DecimalPos.Unsigned.to_uint_nonnil in Hnil.
    - intros [= Hnil]. by apply DecimalPos.Unsigned.to_uint_nonnil in Hnil. }
  apply (f_equal NilZero.int_of_string) in Hab. rewrite !Hround in Hab.
  injection Hab as Hab. apply (f_equal Z.of_int) in Hab.
  by rewrite !DecimalZ.of_to in Hab.
Qed.

#[global] Instance key_le_total : Total key_le.
Proof. intros a b. apply String.leb_total. Qed.

(** X13. Whenever [String] yields a document, its dht22 collection has one
    entry per registered pin, no two entries share a key, and the entries
    come in ascending order of key text. *)
Theorem String_keys w doc :
  String w = Bytes doc →
  ∃ ms, doc = JObject [("dht22", JObject ms)] ∧
        length ms = size (Sensors (dm w)) ∧
        NoDup ms.*1 ∧
        Sorted (λ a b, String.leb a b = true) ms.*1.
Proof.
  intros ->%String_Bytes. eexists. split; [reflexivity|].
  assert ((member_of (store w) <$> sorted_entries (Sensors (dm w))).*1
          = (sorted_entries (Sensors (dm w))).*1) as Hkeys.
  { rewrite <- list_fmap_compose. by apply list_fmap_ext. }
  rewrite Hkeys. split; [|split].
  - rewrite length_fmap, sorted_entries_perm, length_fmap.
    apply length_map_to_list.
  - rewrite sorted_entries_perm, <- list_fmap_compose.
    rewrite (list_fmap_ext (fst ∘ prod_map itoa id) (itoa ∘ fst)
               (map_to_list (Sensors (dm w)))) by (by intros ? []).
    rewrite list_fmap_compose. apply (NoDup_fmap_2 itoa).
    apply NoDup_fst_map_to_list.
  - apply (Sorted_fmap fst key_le); [done|]. apply (Sorted_merge_sort key_le).
Qed.

Lemma String_keys_witness :
  ∃ ms, String (after (test_setup ++ [Call_NewDHT22 4 "Living Room" "Home";
                                      Call_AddSensor 1%nat]))
          = Bytes (JObject [("dht22", JObject ms)]) ∧
        ms.*1 = ["19"; "4"].
Proof.
  destruct (String_keys
              (after (test_setup ++ [Call_NewDHT22 4 "Living Room" "Home";
                                     Call_AddSensor 1%nat]))
              (JObject [("dht22",
                 JObject [("19", entry_of top_of_tent);
                          ("4", entry_of (NewDHT22 4 "Living Room" "Home"))])]))
    as (ms & Hdoc & _).
  - reflexivity.
  - exists ms. injection Hdoc as <-. split; reflexivity.
Defined.

(** ** Starting, stopping and the select *)

Lemma perform_step_last w t c t' w' :
  step_thread t c (spawn t w) = Done (t', w') →
  perform (Step (length (threads w)) c) (spawn t w)
    = Done (with_threads (<[length (threads w) := t']> (threads w')) w').
Proof.
  intros Hs. simpl. rewrite list_lookup_middle by done. by rewrite Hs.
Qed.

(** X14. A stop is not lost when it comes early: if [StopReadCycle] is
    called right after [StartReadCycle], before the new goroutine has run,
    the goroutine then enters its select on the closed channel, cannot take
    a tick (none has fired), and takes the stop case and returns without
    ever calling the driver. *)
Theorem early_stop_is_not_lost interval w :
  0 < interval →
  ∃ w1 w2 w3 w4,
    StartReadCycle interval w = Done w1 ∧
    StopReadCycle w1 = Done w2 ∧
    perform (Step (length (threads w)) Auto) w2 = Done w3 ∧
    perform (Step (length (threads w)) TakeTick) w3 = Blocked ∧
    perform (Step (length (threads w)) TakeStop) w3 = Done w4 ∧
    threads w4 = threads w ++ [Cycle interval None Returned] ∧
    driver_calls w4 = driver_calls w ∧ store w4 = store w.
Proof.
  intros Hpos. eexists _, _, _, _.
  split; [reflexivity|].
  split.
  { unfold StopReadCycle, close. simpl.
    rewrite list_lookup_middle by done. reflexivity. }
  split.
  { simpl. rewrite list_lookup_middle by done. simpl.
    rewrite decide_False by lia. simpl. reflexivity. }
  simpl.
  rewrite !insert_app_r_alt, !Nat.sub_diag by done. simpl.
  rewrite !list_lookup_middle by done. simpl.
  split; [reflexivity|].
  unfold closed. simpl. rewrite list_lookup_middle by done. simpl.
  split; [reflexivity|]. simpl.
  rewrite insert_app_r_alt, Nat.sub_diag by done. done.
Qed.

Lemma early_stop_is_not_lost_witness :
  ∃ w3 w4,
    perform (Step 0 TakeTick) w3 = Blocked ∧
    perform (Step 0 TakeStop) w3 = Done w4 ∧
    threads w4 = [Cycle five_seconds None Returned] ∧ driver_calls w4 = [].
Proof.
  destruct (early_stop_is_not_lost five_seconds (after test_setup))
    as (w1 & w2 & w3 & w4 & _ & _ & _ & Htick & Hstop & Hth & Hcalls & _);
    [reflexivity|].
  exists w3, w4. split; [exact Htick|]. split; [exact Hstop|].
  split; [exact Hth|exact Hcalls].
Defined.

(** X15. The goroutine reads [dm.stopReading] when it enters its select, not
    when it is started: if [StartReadCycle] is called twice before the first
    goroutine has run, both goroutines select on the second channel, so that
    one [StopReadCycle] is seen by both, and the first channel is left open
    and unreachable. *)
Theorem two_starts_share_the_last_channel i1 i2 w :
  0 < i1 → 0 < i2 →
  ∃ w1 w2 w3 w4 w5,
    StartReadCycle i1 w = Done w1 ∧ StartReadCycle i2 w1 = Done w2 ∧
    perform (Step (length (threads w)) Auto) w2 = Done w3 ∧
    perform (Step (S (length (threads w))) Auto) w3 = Done w4 ∧
    threads w4 = threads w ++
      [Cycle i1 (Some false) (AtSelect (Some (S (length (chans w)))));
       Cycle i2 (Some false) (AtSelect (Some (S (length (chans w)))))] ∧
    StopReadCycle w4 = Done w5 ∧
    chans w5 = chans w ++ [false; true].
Proof.
  intros H1 H2. eexists _, _, _, _, _.
  split; [reflexivity|]. split; [reflexivity|].
  split.
  { simpl. rewrite <- app_assoc. simpl.
    rewrite list_lookup_middle by done. simpl.
    rewrite decide_False by lia. simpl. reflexivity. }
  simpl. rewrite <- !app_assoc. simpl.
  rewrite !insert_app_r_alt, !Nat.sub_diag by done. simpl.
  split.
  { rewrite (lookup_app_r (threads w)) by lia.
    replace (S (length (threads w)) - length (threads w))%nat with 1%nat by lia.
    simpl. rewrite decide_False by lia. simpl. reflexivity. }
  simpl.
  split.
  { rewrite insert_app_r_alt by lia.
    replace (S (length (threads w)) - length (threads w))%nat with 1%nat by lia.
    rewrite length_app. simpl. by rewrite Nat.add_1_r. }
  unfold StopReadCycle, close. simpl.
  rewrite length_app. simpl. rewrite Nat.add_1_r.
  rewrite (lookup_app_r (chans w)) by lia.
  replace (S (length (chans w)) - length (chans w))%nat with 1%nat by lia.
  simpl. split; [reflexivity|]. simpl.
  rewrite insert_app_r_alt by lia.
  replace (S (length (chans w)) - length (chans w))%nat with 1%nat by lia.
  done.
Qed.

Lemma two_starts_share_the_last_channel_witness :
  threads (after [Call_StartReadCycle five_seconds; Call_StartReadCycle 1;
                  Step 0 Auto; Step 1 Auto])
    = [Cycle five_seconds (Some false) (AtSelect (Some 1%nat));
       Cycle 1 (Some false) (AtSelect (Some 1%nat))].
Proof.
  destruct (two_starts_share_the_last_channel five_seconds 1 init)
    as (w1 & w2 & w3 & w4 & w5 & Hs1 & Hs2 & Hp1 & Hp2 & Hth & _);
    [reflexivity|reflexivity|].
  injection Hs1 as <-. injection Hs2 as <-.
  change (perform (Step 0 Auto)
            (after [Call_StartReadCycle five_seconds; Call_StartReadCycle 1])
          = Done w3) in Hp1.
  vm_compute in Hp1. injection Hp1 as <-.
  vm_compute in Hp2. injection Hp2 as <-.
  reflexivity.
Defined.

(** ** The steps of a read and of Marshal *)

Lemma read_steps_read_witness :
  ∃ w', run_thread (read_steps (failed_reading 3))
          (Cycle five_seconds (Some false) (AtDriver ∅ ∅ 0%nat)) (after test_setup)
          = Done (Cycle five_seconds (Some false) (AtRange ∅ ∅), w') ∧
        store w' = [top_of_tent] ∧
        stdout w' = [failure_line (failed_reading 3)] ∧
        driver_calls w' = [19].
Proof.
  destruct (read_steps_read five_seconds (Some false) ∅ ∅ 0%nat (failed_reading 3)
              (after test_setup) top_of_tent)
    as (w' & Hrun & Hstore & Hout & Hcalls & _).
  - reflexivity.
  - exists w'. split; [exact Hrun|]. split; [exact Hstore|].
    split; [exact Hout|exact Hcalls].
Defined.
